(** * Concur: the .ICO/.CUR generator's command-line application

    A shallow embedding of [src/concur_app.cpp] (namespace [be::concur]):
    the constructor [ConcurApp::ConcurApp(argc, argv)], which registers the
    option handlers and runs the command-line processor, and
    [ConcurApp::operator()()], which checks the input paths and prepares the
    output path.

    What the embedding keeps of the collaborators that are not part of this
    translation unit:
    - the [be::cli] processor is represented by the sequence of handler
      invocations it performs, in command-line order ([Arg]);
    - the filesystem library is an oracle answering each query, where [None]
      stands for a thrown [fs::filesystem_error] ([FileSystem]);
    - logging and help output are events appended to a trace ([Event]). *)

From Stdlib Require Import ZArith QArith Ascii String.
From stdpp Require Import gmap strings list fin_maps.

Local Open Scope string_scope.
Local Open Scope list_scope.
Local Open Scope Z_scope.

(** ** Data model *)

Abbreviation Path := string (only parsing).

(** [enum class input_type] as used by the [-i], [-p] and [-b] handlers. *)
Inductive input_type : Set :=
| automatic
| png
| bitmap.

#[global] Instance input_type_eq_dec : EqDecision input_type.
Proof. solve_decision. Defined.

(** [glm::vec2]: the two coordinates of a normalized hotspot.  The
    coordinates are [F32] in the source; the rationals stand for the finite
    values. *)
Record vec2 : Set := Vec2 { x : Q; y : Q }.

(** The data members of [ConcurApp].  Both containers are indexed with
    [operator[]] in the source, so they are finite maps. *)
Record ConcurApp : Type := MkConcurApp {
  inputs_ : gmap string input_type;
  output_sizes_ : gmap Z vec2;
  output_path_ : Path;
  status_ : Z
}.

Definition set_inputs (f : gmap string input_type → gmap string input_type)
    (a : ConcurApp) : ConcurApp :=
  MkConcurApp (f (inputs_ a)) (output_sizes_ a) (output_path_ a) (status_ a).

Definition set_output_sizes (f : gmap Z vec2 → gmap Z vec2)
    (a : ConcurApp) : ConcurApp :=
  MkConcurApp (inputs_ a) (f (output_sizes_ a)) (output_path_ a) (status_ a).

Definition set_output_path (p : Path) (a : ConcurApp) : ConcurApp :=
  MkConcurApp (inputs_ a) (output_sizes_ a) p (status_ a).

Definition set_status (s : Z) (a : ConcurApp) : ConcurApp :=
  MkConcurApp (inputs_ a) (output_sizes_ a) (output_path_ a) s.

(** A freshly constructed object: empty containers, empty path.  The member
    initialiser of [status_] is in the header; the exit code list documents
    0 as "There were no errors." *)
Definition fresh_app : ConcurApp := MkConcurApp ∅ ∅ "" 0.

(** ** Events *)

Inductive LicenseText : Set := BE_LICENSE | BE_COPYRIGHT.

Inductive DescribeSection : Set :=
| cli_describe_section_prologue
| cli_describe_section_license.

Inductive Event : Type :=
| ev_license (t : LicenseText)                 (* proc (license (t).query()) *)
| ev_describe (query : string)                 (* proc.describe(std::cout, help_query) *)
| ev_describe_section (s : DescribeSection)    (* proc.describe(std::cout, ids::...) *)
| ev_parse_error                               (* be_error() in a catch clause of the constructor *)
| ev_error (msg : string) (path : option Path) (* be_error() << msg & attr(path) *)
| ev_short_verbose (msg : string) (path : Path)
| ev_exists (p : Path)                         (* fs::exists(p) *)
| ev_is_regular_file (p : Path)                (* fs::is_regular_file(p) *)
| ev_absolute (p : Path)                       (* fs::absolute(p) *)
| ev_create_directories (p : Path).            (* fs::create_directories(p) *)

#[global] Instance LicenseText_eq_dec : EqDecision LicenseText.
Proof. solve_decision. Defined.
#[global] Instance DescribeSection_eq_dec : EqDecision DescribeSection.
Proof. solve_decision. Defined.
#[global] Instance Event_eq_dec : EqDecision Event.
Proof. solve_decision. Defined.

(** ** The command line, as the processor dispatches it *)

(** One constructor per handler registered by the constructor, carrying the
    raw value string the handler receives.  Bundled short options
    ([-SM], [-xy 2/16]) are the corresponding handler invocations in order. *)
Inductive Arg : Set :=
| opt_input (str : string)        (* -I -i --input PATH *)
| opt_png (str : string)          (* -P -p --png PATH *)
| opt_bmp (str : string)          (* -B -b --bmp --dib PATH *)
| opt_hotspot_x (str : string)    (* -x --hotspot-x NUMBER *)
| opt_hotspot_y (str : string)    (* -y --hotspot-y NUMBER *)
| opt_size (str : string)         (* -s --size DIMENSION *)
| flag_small                      (* -S --small --16 *)
| flag_medium                     (* -M --medium --24 *)
| flag_normal                     (* -N --normal --32 *)
| flag_large                      (* -L --large --48 *)
| flag_extra_large                (* -X --extra-large --256 *)
| flag_all                        (* -A --all *)
| nth0 (str : string)             (* positional argument 0: OUTPUT_PATH *)
| opt_verbosity (str : string)    (* -v --verbosity LEVEL *)
| flag_version                    (* -V --version *)
| opt_help (str : string)         (* -? [OPTION] *)
| long_help (str : string)        (* --help [OPTION]: the param and the flag *)
| rejected.                       (* a token for which the processor throws *)

#[global] Instance Arg_eq_dec : EqDecision Arg.
Proof. solve_decision. Defined.

(** The variables of the constructor that the handlers capture by
    reference, together with the object under construction. *)
Record Locals : Type := MkLocals {
  this : ConcurApp;
  hotspot : vec2;
  show_version : bool;
  show_help : bool;
  help_query : string;
  proc_verbose : bool;
  verbosity_mask : Z
}.

Definition on_this (f : ConcurApp → ConcurApp) (c : Locals) : Locals :=
  MkLocals (f (this c)) (hotspot c) (show_version c) (show_help c)
           (help_query c) (proc_verbose c) (verbosity_mask c).

Definition set_hotspot (h : vec2) (c : Locals) : Locals :=
  MkLocals (this c) h (show_version c) (show_help c)
           (help_query c) (proc_verbose c) (verbosity_mask c).

Definition set_show_version (b : bool) (c : Locals) : Locals :=
  MkLocals (this c) (hotspot c) b (show_help c)
           (help_query c) (proc_verbose c) (verbosity_mask c).

Definition set_help (q : string) (c : Locals) : Locals :=
  MkLocals (this c) (hotspot c) (show_version c) true
           q (proc_verbose c) (verbosity_mask c).

Definition set_proc_verbose (b : bool) (c : Locals) : Locals :=
  MkLocals (this c) (hotspot c) (show_version c) (show_help c)
           (help_query c) b (verbosity_mask c).

Definition set_verbosity_mask (m : Z) (c : Locals) : Locals :=
  MkLocals (this c) (hotspot c) (show_version c) (show_help c)
           (help_query c) (proc_verbose c) m.

(** [output_sizes_[n] = hotspot;] *)
Definition declare_size (n : Z) (c : Locals) : Locals :=
  on_this (set_output_sizes <[n := hotspot c]>) c.

(** [inputs_[str] = t;] *)
Definition declare_input (str : string) (t : input_type) (c : Locals) : Locals :=
  on_this (set_inputs <[str := t]>) c.

(** What the constructor takes from outside this translation unit.  The
    numeric syntax accepted by [be::util]'s parsers is not fixed here:
    [parse_numeric_string_U16] and [parse_numeric_string_F32] give the value
    a string denotes, if any, and [parse_verbosity] does the same for the
    verbosity mask.  [hotspot0] is the value of the local
    [glm::vec2 hotspot;], which the source declares without an
    initialiser. *)
Class Environment : Type := MkEnvironment {
  parse_numeric_string_U16 : string → option Z;
  parse_numeric_string_F32 : string → option Q;
  parse_verbosity : string → option Z;
  hotspot0 : vec2
}.

Section Concur.

Context {env : Environment}.

(** Modelled from the spec: [be::util::parse_bounded_numeric_string<U16>] is
    declared in [<be/util/parse_numeric_string.hpp>], which is not among the
    sources.  The spec gives the edge length as an integer in 1..=256 and
    counts a bad command line as an argument-parse error, so the helper
    yields the parsed value when it lies within the bounds passed to it and
    throws ([None]) otherwise. *)
Definition parse_bounded_numeric_string_U16 (str : string) (min max : Z)
    : option Z :=
  match parse_numeric_string_U16 str with
  | Some v => if bool_decide (min ≤ v ∧ v ≤ max) then Some v else None
  | None => None
  end.

(** Modelled from the spec: [be::util::parse_bounded_numeric_string<F32>],
    from the same missing header.  The spec gives each hotspot coordinate as
    a normalized value in [0,1]; the helper yields the parsed value when it
    lies within the bounds passed to it and throws ([None]) otherwise. *)
Definition parse_bounded_numeric_string_F32 (str : string) (min max : Q)
    : option Q :=
  match parse_numeric_string_F32 str with
  | Some v => if Qle_bool min v && Qle_bool v max then Some v else None
  | None => None
  end.

(** ** The option handlers (lines 39-141)

    [handle a c] runs the handlers the processor invokes for [a]; [None]
    means an exception left the handler (or the processor). *)
Definition handle (a : Arg) (c : Locals) : option Locals :=
  match a with
  | opt_input str => Some (declare_input str automatic c)
  | opt_png str => Some (declare_input str png c)
  | opt_bmp str => Some (declare_input str bitmap c)
  | opt_hotspot_x str =>
      match parse_bounded_numeric_string_F32 str 0%Q 1%Q with
      | Some v => Some (set_hotspot (Vec2 v (y (hotspot c))) c)
      | None => None
      end
  | opt_hotspot_y str =>
      match parse_bounded_numeric_string_F32 str 0%Q 1%Q with
      | Some v => Some (set_hotspot (Vec2 (x (hotspot c)) v) c)
      | None => None
      end
  | opt_size str =>
      match parse_bounded_numeric_string_U16 str 1 256 with
      | Some size => Some (declare_size size c)
      | None => None
      end
  | flag_small => Some (declare_size 16 c)
  | flag_medium => Some (declare_size 24 c)
  | flag_normal => Some (declare_size 32 c)
  | flag_large => Some (declare_size 48 c)
  | flag_extra_large => Some (declare_size 256 c)
  | flag_all =>
      Some (declare_size 256
             (declare_size 48
               (declare_size 32
                 (declare_size 24
                   (declare_size 16 c)))))
  | nth0 str => Some (on_this (set_output_path str) c)
  | opt_verbosity str =>
      match parse_verbosity str with
      | Some m => Some (set_verbosity_mask m c)
      | None => None
      end
  | flag_version => Some (set_show_version true c)
  | opt_help value => Some (set_help value c)
  | long_help value => Some (set_proc_verbose true (set_help value c))
  | rejected => None
  end.

(** The keys of [output_sizes_] that the handlers of [a] assign. *)
Definition declares (a : Arg) : list Z :=
  match a with
  | opt_size str =>
      match parse_bounded_numeric_string_U16 str 1 256 with
      | Some size => [size]
      | None => []
      end
  | flag_small => [16]
  | flag_medium => [24]
  | flag_normal => [32]
  | flag_large => [48]
  | flag_extra_large => [256]
  | flag_all => [16; 24; 32; 48; 256]
  | _ => []
  end.

(** The entry of [inputs_] that the handlers of [a] assign. *)
Definition declared_input (a : Arg) : option (Path * input_type) :=
  match a with
  | opt_input str => Some (str, automatic)
  | opt_png str => Some (str, png)
  | opt_bmp str => Some (str, bitmap)
  | _ => None
  end.

(** The input declarations of a command line, in command-line order. *)
Definition declared_inputs (args : list Arg) : list (Path * input_type) :=
  omap declared_input args.

(** The handlers that assign a coordinate of the local [hotspot]. *)
Definition is_hotspot_option (a : Arg) : bool :=
  match a with
  | opt_hotspot_x _ | opt_hotspot_y _ => true
  | _ => false
  end.

(** [proc(argc, argv)]: the handlers run in command-line order; the first
    exception stops the processor, and what the earlier handlers stored
    stays stored.  The boolean tells whether the processor returned
    normally. *)
Fixpoint proc (args : list Arg) (c : Locals) : Locals * bool :=
  match args with
  | [] => (c, true)
  | a :: rest =>
      match handle a c with
      | Some c' => proc rest c'
      | None => (c, false)
      end
  end.

Definition locals0 : Locals :=
  MkLocals fresh_app hotspot0 false false "" false 0.

(** ** [ConcurApp::ConcurApp(int argc, char** argv)] (lines 17-219) *)
Definition ConcurApp_ctor (args : list Arg) : ConcurApp * list Event :=
  match proc args locals0 with
  | (c, true) =>
      let missing :=
        negb (show_help c) && negb (show_version c)
        && bool_decide (output_path_ (this c) = "") in
      let show_help' := show_help c || missing in
      let show_version' := show_version c || missing in
      let app := if missing then set_status 1 (this c) else this c in
      let licenses :=
        if show_version' then [ev_license BE_LICENSE; ev_license BE_COPYRIGHT]
        else [] in
      let described :=
        if show_help' then [ev_describe (help_query c)]
        else if show_version' then
          [ev_describe_section cli_describe_section_prologue;
           ev_describe_section cli_describe_section_license]
        else [] in
      (app, licenses ++ described)
  | (c, false) => (set_status 2 (this c), [ev_parse_error])
  end.

End Concur.

(** ** The filesystem, as an oracle

    Each field answers one library call; [None] stands for a thrown
    [fs::filesystem_error].  [operator()] performs its only mutating call,
    [fs::create_directories], after its last query, so one oracle serves
    the whole run. *)
Record FileSystem : Type := MkFileSystem {
  fs_exists : Path → option bool;
  fs_is_regular_file : Path → option bool;
  fs_absolute : Path → option Path;
  fs_parent_path : Path → Path;
  fs_create_directories : Path → option bool
}.

(** ** State and exceptions of [operator()]

    The object's members and the trace are threaded through; an exception
    ([None]) keeps the state reached so far. *)
Record World : Type := MkWorld {
  w_app : ConcurApp;
  w_trace : list Event
}.

Definition M (A : Type) : Type := World → World * option A.

#[global] Instance M_ret : MRet M := λ A a w, (w, Some a).

#[global] Instance M_bind : MBind M := λ A B k m w,
  match m w with
  | (w', Some a) => k a w'
  | (w', None) => (w', None)
  end.

Definition emit (e : Event) : M unit :=
  λ w, (MkWorld (w_app w) (w_trace w ++ [e]), Some tt).

(** A library call: recorded in the trace, answered by the oracle. *)
Definition call {A : Type} (e : Event) (r : option A) : M A :=
  λ w, (MkWorld (w_app w) (w_trace w ++ [e]), r).

Definition assign_status (s : Z) : M unit :=
  λ w, (MkWorld (set_status s (w_app w)) (w_trace w), Some tt).

Definition assign_output_path (p : Path) : M unit :=
  λ w, (MkWorld (set_output_path p (w_app w)) (w_trace w), Some tt).

Definition get_app : M ConcurApp := λ w, (w, Some (w_app w)).

(** [try { body } catch (...) { handler }] *)
Definition try_catch (body handler : M unit) : M unit :=
  λ w,
  match body w with
  | (w', Some u) => (w', Some u)
  | (w', None) => handler w'
  end.

(** [for (const auto& x : l) { body }] *)
Fixpoint for_each {A : Type} (l : list A) (body : A → M unit) : M unit :=
  match l with
  | [] => mret tt
  | a :: l' => body a;; for_each l' body
  end.

Section Run.

Variable fs : FileSystem.

(** The body of the input loop (lines 240-251). *)
Definition check_input (path : Path) : M unit :=
  e ← call (ev_exists path) (fs_exists fs path);
  if negb e then
    assign_status 3;;
    emit (ev_error "Input path does not exist!" (Some path))
  else
    r ← call (ev_is_regular_file path) (fs_is_regular_file fs path);
    if negb r then
      assign_status 3;;
      emit (ev_error "Input path is not a file!" (Some path))
    else mret tt.

(** Lines 238-284. *)
Definition read_inputs : M unit :=
  try_catch
    (app ← get_app;
     for_each (map_to_list (inputs_ app)) (λ pair, check_input pair.1))
    (assign_status 4;;
     emit (ev_error "Filesystem error while reading inputs!" None)).

(** Lines 290-338. *)
Definition configure_output : M unit :=
  try_catch
    (app ← get_app;
     q ← call (ev_absolute (output_path_ app))
              (fs_absolute fs (output_path_ app));
     assign_output_path q;;
     e ← call (ev_exists q) (fs_exists fs q);
     (if e : bool then
        r ← call (ev_is_regular_file q) (fs_is_regular_file fs q);
        if negb r then
          assign_status 5;;
          emit (ev_error "Output path already exists and is not a file!"
                         (Some q))
        else mret tt
      else
        pe ← call (ev_exists (fs_parent_path fs q))
                  (fs_exists fs (fs_parent_path fs q));
        if negb pe then
          call (ev_create_directories (fs_parent_path fs q))
               (fs_create_directories fs (fs_parent_path fs q));;
          mret tt
        else mret tt);;
     emit (ev_short_verbose "Output path: " q))
    (assign_status 1;;
     emit (ev_error "Filesystem error while configuring paths!" None)).

(** ** [int ConcurApp::operator()()] (lines 222-341)

    The result is the object after the call, the trace of the call, and
    the returned status. *)
Definition operator_call (app : ConcurApp) : World * Z :=
  if bool_decide (status_ app ≠ 0) then (MkWorld app [], status_ app)
  else if bool_decide (output_path_ app = "") then (MkWorld app [], status_ app)
  else
    let w := ((read_inputs;; configure_output) (MkWorld app [])).1 in
    (w, status_ (w_app w)).

End Run.

(** The program: construct from the command line, then call. *)
Definition exit_status `{Environment} (fs : FileSystem) (args : list Arg) : Z :=
  (operator_call fs (ConcurApp_ctor args).1).2.

(** ** Vocabulary of the statements *)

(** The hotspot in effect after the options [pre], read off the command
    line: each coordinate is the value of the last option that sets it, or
    the coordinate of [h] when no option does. *)
Definition hotspot_x_value `{Environment} (a : Arg) : option Q :=
  match a with
  | opt_hotspot_x str => parse_bounded_numeric_string_F32 str 0%Q 1%Q
  | _ => None
  end.

Definition hotspot_y_value `{Environment} (a : Arg) : option Q :=
  match a with
  | opt_hotspot_y str => parse_bounded_numeric_string_F32 str 0%Q 1%Q
  | _ => None
  end.

Definition most_recent_hotspot `{Environment} (pre : list Arg) (h : vec2) : vec2 :=
  Vec2 (default (x h) (last (omap hotspot_x_value pre)))
       (default (y h) (last (omap hotspot_y_value pre))).

(** The handlers that ask for the help or the version text. *)
Definition requests_help_or_version (a : Arg) : bool :=
  match a with
  | flag_version | opt_help _ | long_help _ => true
  | _ => false
  end.

(** The handler that stores the output path. *)
Definition is_output_path (a : Arg) : bool :=
  match a with
  | nth0 _ => true
  | _ => false
  end.

(** What the input loop finds at one path. *)
Inductive InputCheck : Set :=
| input_ok        (* exists and is a regular file *)
| input_bad       (* does not exist, or is not a regular file *)
| input_throws.   (* a query throws *)

Definition classify_input (fs : FileSystem) (p : Path) : InputCheck :=
  match fs_exists fs p with
  | None => input_throws
  | Some false => input_bad
  | Some true =>
      match fs_is_regular_file fs p with
      | None => input_throws
      | Some false => input_bad
      | Some true => input_ok
      end
  end.

#[global] Instance InputCheck_eq_dec : EqDecision InputCheck.
Proof. solve_decision. Defined.

(** The trace of one iteration of the input loop. *)
Definition check_events (fs : FileSystem) (p : Path) : list Event :=
  match fs_exists fs p with
  | None => [ev_exists p]
  | Some false =>
      [ev_exists p; ev_error "Input path does not exist!" (Some p)]
  | Some true =>
      match fs_is_regular_file fs p with
      | Some false =>
          [ev_exists p; ev_is_regular_file p;
           ev_error "Input path is not a file!" (Some p)]
      | _ => [ev_exists p; ev_is_regular_file p]
      end
  end.

(** What the output phase finds at the output path [o]. *)
Inductive OutputCheck : Set :=
| output_ok        (* a regular file, or absent with a parent that exists or can be created *)
| output_blocked   (* exists and is not a regular file *)
| output_throws.   (* a library call throws *)

Definition classify_output (fs : FileSystem) (o : Path) : OutputCheck :=
  match fs_absolute fs o with
  | None => output_throws
  | Some q =>
      match fs_exists fs q with
      | None => output_throws
      | Some true =>
          match fs_is_regular_file fs q with
          | None => output_throws
          | Some false => output_blocked
          | Some true => output_ok
          end
      | Some false =>
          match fs_exists fs (fs_parent_path fs q) with
          | None => output_throws
          | Some true => output_ok
          | Some false =>
              match fs_create_directories fs (fs_parent_path fs q) with
              | None => output_throws
              | Some _ => output_ok
              end
          end
      end
  end.

#[global] Instance OutputCheck_eq_dec : EqDecision OutputCheck.
Proof. solve_decision. Defined.

(** The status after the input loop and its catch clauses. *)
Definition inputs_status (fs : FileSystem) (a : ConcurApp) : Z :=
  let paths := (map_to_list (inputs_ a)).*1 in
  if bool_decide (Exists (λ p, classify_input fs p = input_throws) paths)
  then 4
  else if bool_decide (Exists (λ p, classify_input fs p = input_bad) paths)
  then 3
  else status_ a.

(** ** Vocabulary of the further statements *)

(** The events that are calls into the filesystem library. *)
Definition is_fs_event (e : Event) : bool :=
  match e with
  | ev_exists _ | ev_is_regular_file _ | ev_absolute _
  | ev_create_directories _ => true
  | _ => false
  end.

Definition is_create_directories (e : Event) : bool :=
  match e with
  | ev_create_directories _ => true
  | _ => false
  end.

(** Whether the handlers of [a] throw: only the numeric options can, and
    the tokens that the processor itself rejects. *)
Definition handler_throws `{Environment} (a : Arg) : bool :=
  match a with
  | opt_hotspot_x str | opt_hotspot_y str =>
      bool_decide (parse_bounded_numeric_string_F32 str 0%Q 1%Q = None)
  | opt_size str =>
      bool_decide (parse_bounded_numeric_string_U16 str 1 256 = None)
  | opt_verbosity str => bool_decide (parse_verbosity str = None)
  | rejected => true
  | _ => false
  end.

(** The value a help option passes to its handler. *)
Definition help_value (a : Arg) : option string :=
  match a with
  | opt_help value | long_help value => Some value
  | _ => None
  end.

Definition is_help (a : Arg) : bool :=
  match a with
  | opt_help _ | long_help _ => true
  | _ => false
  end.

Definition is_version (a : Arg) : bool :=
  match a with
  | flag_version => true
  | _ => false
  end.

(** The value the positional handler stores. *)
Definition output_value (a : Arg) : option Path :=
  match a with
  | nth0 str => Some str
  | _ => None
  end.

(** The trace of the input loop over [paths]: the iterations up to and
    including the first one in which a query throws. *)
Fixpoint inputs_events (fs : FileSystem) (paths : list Path) : list Event :=
  match paths with
  | [] => []
  | p :: rest =>
      check_events fs p ++
      match classify_input fs p with
      | input_throws => []
      | _ => inputs_events fs rest
      end
  end.

Definition reading_error : Event :=
  ev_error "Filesystem error while reading inputs!" None.

Definition configuring_error : Event :=
  ev_error "Filesystem error while configuring paths!" None.

(** The trace of the first [try] block with its catch clause. *)
Definition read_events (fs : FileSystem) (app : ConcurApp) : list Event :=
  let paths := (map_to_list (inputs_ app)).*1 in
  inputs_events fs paths ++
  if bool_decide (Exists (λ p, classify_input fs p = input_throws) paths)
  then [reading_error] else [].

(** The trace of the second [try] block with its catch clause, for the
    output path [o]. *)
Definition output_events (fs : FileSystem) (o : Path) : list Event :=
  ev_absolute o ::
  match fs_absolute fs o with
  | None => [configuring_error]
  | Some q =>
      ev_exists q ::
      match fs_exists fs q with
      | None => [configuring_error]
      | Some true =>
          ev_is_regular_file q ::
          match fs_is_regular_file fs q with
          | None => [configuring_error]
          | Some false =>
              [ev_error "Output path already exists and is not a file!"
                        (Some q);
               ev_short_verbose "Output path: " q]
          | Some true => [ev_short_verbose "Output path: " q]
          end
      | Some false =>
          ev_exists (fs_parent_path fs q) ::
          match fs_exists fs (fs_parent_path fs q) with
          | None => [configuring_error]
          | Some true => [ev_short_verbose "Output path: " q]
          | Some false =>
              ev_create_directories (fs_parent_path fs q) ::
              match fs_create_directories fs (fs_parent_path fs q) with
              | None => [configuring_error]
              | Some _ => [ev_short_verbose "Output path: " q]
              end
          end
      end
  end.

(** Case analysis on a membership [H : e ∈ [e1; ...; en]], dropping the
    cases that equate different constructors. *)
Ltac elem_cases H :=
  repeat (apply elem_of_cons in H as [H|H]; [try discriminate H|]);
  try (by apply elem_of_nil in H).

(** ** Sample collaborators

    Concrete parsers and filesystems on which the definitions above can be
    run: decimal sizes, the two hotspot notations named by the help text of
    [-x] (a decimal fraction such as [0.25], an integer ratio such as
    [4/16]), and a filesystem given by a table of nodes. *)
Module Sample.

Definition digit (a : ascii) : option Z :=
  let n := Z.of_N (N_of_ascii a) in
  if bool_decide (48 ≤ n ∧ n ≤ 57) then Some (n - 48) else None.

Fixpoint digits_from (acc : Z) (s : string) : option Z :=
  match s with
  | EmptyString => Some acc
  | String a s' =>
      match digit a with
      | Some d => digits_from (10 * acc + d) s'
      | None => None
      end
  end.

Definition digits (s : string) : option Z :=
  match s with
  | EmptyString => None
  | _ => digits_from 0 s
  end.

(** [split_at c s]: the text before and after the first [c] in [s]. *)
Fixpoint split_at (c : ascii) (s : string) : option (string * string) :=
  match s with
  | EmptyString => None
  | String a s' =>
      if bool_decide (a = c) then Some (EmptyString, s')
      else match split_at c s' with
           | Some (l, r) => Some (String a l, r)
           | None => None
           end
  end.

Definition parse_U16 (s : string) : option Z :=
  match digits s with
  | Some v => if bool_decide (v ≤ 65535) then Some v else None
  | None => None
  end.

Definition parse_F32 (s : string) : option Q :=
  match split_at "/" s with
  | Some (n, d) =>
      match digits n, digits d with
      | Some nv, Some dv =>
          if bool_decide (0 < dv) then Some (nv # Z.to_pos dv) else None
      | _, _ => None
      end
  | None =>
      match split_at "." s with
      | Some (i, f) =>
          match digits i, digits f with
          | Some iv, Some fv =>
              let scale := 10 ^ Z.of_nat (String.length f) in
              Some ((iv * scale + fv) # Z.to_pos scale)
          | _, _ => None
          end
      | None =>
          match digits s with
          | Some i => Some (i # 1)
          | None => None
          end
      end
  end.

Definition parse_mask (s : string) : option Z := digits s.

Definition origin : vec2 := Vec2 0 0.

Inductive node : Set :=
| regular_file
| directory
| unreadable.   (* querying it throws *)

Fixpoint parent_of (s : string) : option string :=
  match s with
  | EmptyString => None
  | String a s' =>
      match parent_of s' with
      | Some p => Some (String a p)
      | None => if bool_decide (a = "/"%char) then Some EmptyString else None
      end
  end.

Definition table_fs (nodes : gmap string node) : FileSystem := {|
  fs_exists p :=
    match nodes !! p with
    | Some unreadable => None
    | Some _ => Some true
    | None => Some false
    end;
  fs_is_regular_file p :=
    match nodes !! p with
    | Some unreadable => None
    | Some regular_file => Some true
    | _ => Some false
    end;
  fs_absolute p := Some p;
  fs_parent_path p := default EmptyString (parent_of p);
  fs_create_directories p := Some true
|}.

Definition env : Environment := MkEnvironment parse_U16 parse_F32 parse_mask origin.

Definition ctor : list Arg → ConcurApp * list Event := @ConcurApp_ctor env.
Definition start : Locals := @locals0 env.
Definition process : list Arg → Locals → Locals * bool := @proc env.
Definition exit : FileSystem → list Arg → Z := @exit_status env.

(** Scenario D of the spec: size 16 requested twice, the hotspot changed in
    between. *)
Definition scenario_d : list Arg :=
  [opt_hotspot_x "0.25"; opt_size "16"; opt_hotspot_x "0.75"; opt_size "16";
   nth0 "out.cur"].

(** The third example of the help text:
    [-i icon_image.tga -xy 2/16 -SM -x 3/32 -N cursor.cur]. *)
Definition cursor_example : list Arg :=
  [opt_input "icon_image.tga"; opt_hotspot_x "2/16"; opt_hotspot_y "2/16";
   flag_small; flag_medium; opt_hotspot_x "3/32"; flag_normal;
   nth0 "cursor.cur"].

(** One path declared twice, with different hints. *)
Definition repeated_input : list Arg :=
  [opt_input "a.png"; opt_png "a.png"; nth0 "out.ico"].

(** Two inputs and an output path, on several filesystems. *)
Definition two_inputs : list Arg :=
  [opt_input "a.png"; opt_input "b.png"; nth0 "out.ico"].

Definition empty_fs : FileSystem := table_fs ∅.

Definition b_is_directory : FileSystem :=
  table_fs (<["b.png" := directory]> ∅).

Definition both_regular : FileSystem :=
  table_fs (<["a.png" := regular_file]> (<["b.png" := regular_file]> ∅)).

Definition b_unreadable : FileSystem :=
  table_fs (<["b.png" := unreadable]> ∅).

Definition output_is_directory : FileSystem :=
  table_fs (<["out.ico" := directory]> ∅).

Definition output_unreadable : FileSystem :=
  table_fs (<["a.png" := regular_file]>
             (<["b.png" := regular_file]> (<["out.ico" := unreadable]> ∅))).

Definition b_unreadable_output_is_directory : FileSystem :=
  table_fs (<["b.png" := unreadable]> (<["out.ico" := directory]> ∅)).

(** An output path below directories that do not exist yet. *)
Definition nested_output : list Arg :=
  [opt_input "a.png"; flag_all; nth0 "build/icons/out.ico"].

Definition a_unreadable : FileSystem :=
  table_fs (<["a.png" := unreadable]> ∅).

(** Help and version requests, with and without an output path. *)
Definition help_then_output : list Arg :=
  [opt_help "size"; flag_version; long_help "hotspot"; opt_input "a.png";
   nth0 "out.ico"].

Definition version_only : list Arg := [flag_small; flag_version].

(** A bad size after an input, a size and a help request. *)
Definition bad_size_late : list Arg :=
  [opt_input "a.png"; flag_small; opt_help ""; opt_size "512";
   nth0 "out.ico"; flag_large].

End Sample.

(** * Properties *)

Section Properties.

Context {env : Environment}.

(** ** The processor *)

Lemma proc_app (l1 l2 : list Arg) (c : Locals) :
  proc (l1 ++ l2) c =
  match proc l1 c with
  | (c1, true) => proc l2 c1
  | (c1, false) => (c1, false)
  end.
Proof.
  revert c. induction l1 as [|a l1 IH]; intros c; simpl; [done|].
  destruct (handle a c); [apply IH | done].
Qed.

Lemma proc_ok_app (l1 l2 : list Arg) (c c' : Locals) :
  proc (l1 ++ l2) c = (c', true) →
  ∃ c1, proc l1 c = (c1, true) ∧ proc l2 c1 = (c', true).
Proof.
  rewrite proc_app. destruct (proc l1 c) as [c1 [|]]; [eauto | done].
Qed.

Lemma proc_ok_cons (a : Arg) (l : list Arg) (c c' : Locals) :
  proc (a :: l) c = (c', true) →
  ∃ c1, handle a c = Some c1 ∧ proc l c1 = (c', true).
Proof. simpl. destruct (handle a c); [eauto | done]. Qed.

Lemma proc_fail_at (pre post : list Arg) (a : Arg) (c c1 : Locals) :
  proc pre c = (c1, true) → handle a c1 = None →
  proc (pre ++ a :: post) c = (c1, false).
Proof. intros Hpre Ha. rewrite proc_app, Hpre. simpl. by rewrite Ha. Qed.

(** ** What one handler does to the members and the locals *)

Lemma handle_output_sizes (a : Arg) (c c' : Locals) :
  handle a c = Some c' →
  output_sizes_ (this c') =
  foldl (λ m n, <[n := hotspot c]> m) (output_sizes_ (this c)) (declares a).
Proof.
  destruct a; simpl; intros Hh; simplify_eq; try done.
  - destruct (parse_bounded_numeric_string_F32 _ _ _); by simplify_eq.
  - destruct (parse_bounded_numeric_string_F32 _ _ _); by simplify_eq.
  - destruct (parse_bounded_numeric_string_U16 _ _ _); by simplify_eq.
  - destruct (parse_verbosity _); by simplify_eq.
Qed.

Lemma foldl_insert_lookup (h : vec2) (l : list Z) (m : gmap Z vec2) (n : Z) :
  foldl (λ m n, <[n := h]> m) m l !! n =
  if bool_decide (n ∈ l) then Some h else m !! n.
Proof.
  revert m. induction l as [|k l IH]; intros m; cbn [foldl].
  - by rewrite bool_decide_eq_false_2 by set_solver.
  - rewrite IH. destruct (decide (n ∈ l)) as [Hin|Hin].
    + by rewrite !bool_decide_eq_true_2 by set_solver.
    + rewrite (bool_decide_eq_false_2 _ Hin).
      destruct (decide (k = n)) as [->|Hne].
      * rewrite lookup_insert_eq. by rewrite bool_decide_eq_true_2 by set_solver.
      * rewrite lookup_insert_ne by done.
        rewrite bool_decide_eq_false_2; [done|].
        by intros [?|?]%elem_of_cons.
Qed.

Lemma handle_declared (a : Arg) (c c' : Locals) (n : Z) :
  handle a c = Some c' → n ∈ declares a →
  output_sizes_ (this c') !! n = Some (hotspot c).
Proof.
  intros Hh Hn. rewrite (handle_output_sizes _ _ _ Hh), foldl_insert_lookup.
  by rewrite bool_decide_eq_true_2.
Qed.

Lemma handle_not_declared (a : Arg) (c c' : Locals) (n : Z) :
  handle a c = Some c' → n ∉ declares a →
  output_sizes_ (this c') !! n = output_sizes_ (this c) !! n.
Proof.
  intros Hh Hn. rewrite (handle_output_sizes _ _ _ Hh), foldl_insert_lookup.
  by rewrite bool_decide_eq_false_2.
Qed.

Lemma handle_hotspot (a : Arg) (c c' : Locals) :
  handle a c = Some c' → is_hotspot_option a = false → hotspot c' = hotspot c.
Proof.
  destruct a; simpl; intros Hh Ho; simplify_eq; try done.
  - destruct (parse_bounded_numeric_string_U16 _ _ _); by simplify_eq.
  - destruct (parse_verbosity _); by simplify_eq.
Qed.

Lemma proc_not_declared (l : list Arg) (c c' : Locals) (n : Z) :
  proc l c = (c', true) → Forall (λ a, n ∉ declares a) l →
  output_sizes_ (this c') !! n = output_sizes_ (this c) !! n.
Proof.
  revert c. induction l as [|a l IH]; intros c Hp Hall.
  - by simplify_eq/=.
  - apply proc_ok_cons in Hp as (c1 & Ha & Hp).
    apply Forall_cons in Hall as [Hn Hall].
    rewrite (IH _ Hp Hall). by apply (handle_not_declared a).
Qed.

Lemma proc_hotspot_kept (l : list Arg) (c c' : Locals) :
  proc l c = (c', true) → Forall (λ a, is_hotspot_option a = false) l →
  hotspot c' = hotspot c.
Proof.
  revert c. induction l as [|a l IH]; intros c Hp Hall.
  - by simplify_eq/=.
  - apply proc_ok_cons in Hp as (c1 & Ha & Hp).
    apply Forall_cons in Hall as [Hn Hall].
    rewrite (IH _ Hp Hall). by apply (handle_hotspot a).
Qed.

(** ** Output size requests *)

Lemma filter_key_absent {V : Type} (l : list (Z * V)) (n : Z) :
  n ∉ l.*1 → filter (λ r, r.1 = n) l = [].
Proof.
  induction l as [|[k w] l IH]; intros Hn; [done|].
  rewrite filter_cons_False.
  - apply IH. intros Hin. apply Hn. by right.
  - simpl. intros ->. apply Hn. by left.
Qed.

Lemma filter_key_unique {V : Type} (l : list (Z * V)) (n : Z) (v : V) :
  NoDup l.*1 → (n, v) ∈ l → filter (λ r, r.1 = n) l = [(n, v)].
Proof.
  induction l as [|[k w] l IH]; intros Hnd Hin; [by apply elem_of_nil in Hin|].
  apply NoDup_cons in Hnd as [Hk Hnd]. simpl in Hk.
  apply elem_of_cons in Hin as [Heq|Hin].
  - simplify_eq. rewrite filter_cons_True by done.
    by rewrite filter_key_absent.
  - rewrite filter_cons_False; [by apply IH|].
    simpl. intros ->. apply Hk.
    apply list_elem_of_fmap. by exists (n, v).
Qed.

(** C1.  Output size requests are keyed by edge length, last write wins:
    after any command line that the processor accepts, the request set
    holds at most one request per edge length, and for every declaration of
    an edge length [n] that no later argument declares again, the request
    set holds exactly one request for [n], carrying the hotspot in effect at
    that (last) declaration, whatever was stored for [n] before. *)
Theorem output_sizes_last_write_wins (args : list Arg) (c c' : Locals) :
  proc args c = (c', true) →
  NoDup (map_to_list (output_sizes_ (this c'))).*1 ∧
  ∀ (pre post : list Arg) (d : Arg) (n : Z),
    args = pre ++ d :: post →
    n ∈ declares d →
    Forall (λ a, n ∉ declares a) post →
    filter (λ r, r.1 = n) (map_to_list (output_sizes_ (this c')))
    = [(n, hotspot (proc pre c).1)].
Proof.
  intros Hp. split; [apply NoDup_fst_map_to_list|].
  intros pre post d n -> Hn Hpost.
  apply proc_ok_app in Hp as (c1 & Hpre & Hp).
  apply proc_ok_cons in Hp as (c2 & Hd & Hp).
  rewrite Hpre. simpl.
  apply filter_key_unique; [apply NoDup_fst_map_to_list|].
  apply elem_of_map_to_list.
  rewrite (proc_not_declared _ _ _ _ Hp Hpost).
  by apply (handle_declared d).
Qed.

(** ** The current hotspot *)

Lemma most_recent_hotspot_step (a : Arg) (l : list Arg) (c c1 : Locals) :
  handle a c = Some c1 →
  most_recent_hotspot (a :: l) (hotspot c) = most_recent_hotspot l (hotspot c1).
Proof.
  unfold most_recent_hotspot.
  destruct a; simpl; intros Hh; simplify_eq; try done.
  - destruct (parse_bounded_numeric_string_F32 _ _ _) as [v|]; simplify_eq/=.
    rewrite last_cons. by destruct (last (omap hotspot_x_value l)).
  - destruct (parse_bounded_numeric_string_F32 _ _ _) as [v|]; simplify_eq/=.
    rewrite last_cons. by destruct (last (omap hotspot_y_value l)).
  - destruct (parse_bounded_numeric_string_U16 _ _ _); by simplify_eq/=.
  - destruct (parse_verbosity _); by simplify_eq/=.
Qed.

Lemma proc_hotspot (l : list Arg) (c c' : Locals) :
  proc l c = (c', true) → hotspot c' = most_recent_hotspot l (hotspot c).
Proof.
  revert c. induction l as [|a l IH]; intros c Hp.
  - simplify_eq/=. by destruct (hotspot c').
  - apply proc_ok_cons in Hp as (c1 & Ha & Hp).
    rewrite (most_recent_hotspot_step _ _ _ _ Ha). by apply IH.
Qed.

(** C3.  The hotspot recorded by a size declaration is the current one:
    after the options [pre], the current hotspot has, in each coordinate,
    the value of the last hotspot option of [pre] for that coordinate; a
    size declaration [d1] records that hotspot for every edge length it
    declares; and every later size declaration [d2] records the same hotspot
    as long as no hotspot option stands between the two. *)
Theorem size_records_current_hotspot
    (pre : list Arg) (d1 : Arg) (c c1 c2 : Locals) :
  proc pre c = (c1, true) →
  handle d1 c1 = Some c2 →
  hotspot c1 = most_recent_hotspot pre (hotspot c)
  ∧ (∀ n, n ∈ declares d1 →
       output_sizes_ (this c2) !! n = Some (hotspot c1))
  ∧ (∀ (mid : list Arg) (d2 : Arg) (c3 c4 : Locals) (n : Z),
       is_hotspot_option d1 = false →
       Forall (λ a, is_hotspot_option a = false) mid →
       proc mid c2 = (c3, true) →
       handle d2 c3 = Some c4 →
       n ∈ declares d2 →
       output_sizes_ (this c4) !! n = Some (hotspot c1)).
Proof.
  intros Hpre Hd1. split_and!.
  - by apply proc_hotspot.
  - intros n Hn. by apply (handle_declared d1).
  - intros mid d2 c3 c4 n Hno Hmid Hp Hd2 Hn.
    rewrite (handle_declared d2 c3 c4 n Hd2 Hn). f_equal.
    rewrite (proc_hotspot_kept _ _ _ Hp Hmid).
    by apply (handle_hotspot d1).
Qed.

(** ** Inputs *)

Lemma handle_inputs (a : Arg) (c c' : Locals) :
  handle a c = Some c' →
  inputs_ (this c') =
  match declared_input a with
  | Some d => <[d.1 := d.2]> (inputs_ (this c))
  | None => inputs_ (this c)
  end.
Proof.
  destruct a; simpl; intros Hh; simplify_eq; try done.
  - destruct (parse_bounded_numeric_string_F32 _ _ _); by simplify_eq.
  - destruct (parse_bounded_numeric_string_F32 _ _ _); by simplify_eq.
  - destruct (parse_bounded_numeric_string_U16 _ _ _); by simplify_eq.
  - destruct (parse_verbosity _); by simplify_eq.
Qed.

Lemma proc_inputs (l : list Arg) (c c' : Locals) (p : Path) :
  proc l c = (c', true) →
  inputs_ (this c') !! p =
  match last (filter (λ d, d.1 = p) (declared_inputs l)) with
  | Some d => Some d.2
  | None => inputs_ (this c) !! p
  end.
Proof.
  revert c. induction l as [|a l IH]; intros c Hp.
  - by simplify_eq/=.
  - apply proc_ok_cons in Hp as (c1 & Ha & Hp).
    rewrite (IH _ Hp), (handle_inputs _ _ _ Ha).
    unfold declared_inputs. simpl.
    destruct (declared_input a) as [[q t]|]; [|done]. simpl.
    destruct (decide (q = p)) as [->|Hne].
    + rewrite filter_cons_True by done. rewrite last_cons.
      destruct (last _); [done|]. by rewrite lookup_insert_eq.
    + rewrite filter_cons_False by done. by rewrite lookup_insert_ne.
Qed.

(** C4 (amended).  The inputs are stored in a map keyed by path: after any
    command line that the processor accepts, the map holds one entry per
    distinct declared path, and the entry carries the hint of the last
    declaration of that path. *)
Theorem inputs_keyed_by_path (args : list Arg) (c : Locals) :
  proc args locals0 = (c, true) →
  (∀ p, inputs_ (this c) !! p
        = snd <$> last (filter (λ d, d.1 = p) (declared_inputs args)))
  ∧ dom (inputs_ (this c)) = list_to_set (declared_inputs args).*1.
Proof.
  intros Hp.
  assert (Hl : ∀ p, inputs_ (this c) !! p
      = snd <$> last (filter (λ d, d.1 = p) (declared_inputs args))).
  { intros p. rewrite (proc_inputs _ _ _ p Hp). simpl.
    destruct (last _); [done|]. apply lookup_empty. }
  split; [done|].
  apply set_eq. intros p. rewrite elem_of_dom, Hl, elem_of_list_to_set.
  rewrite list_elem_of_fmap. split.
  - intros [t Ht]. destruct (last _) as [d|] eqn:Hlast; [|done].
    apply last_Some_elem_of, list_elem_of_filter in Hlast as [Hd Hin].
    by exists d.
  - intros [d [-> Hin]].
    destruct (last (filter (λ d0, d0.1 = d.1) (declared_inputs args)))
      as [d'|] eqn:Hlast; [by eexists|].
    apply last_None in Hlast.
    assert (Hf : d ∈ filter (λ d0, d0.1 = d.1) (declared_inputs args))
      by by apply list_elem_of_filter.
    rewrite Hlast in Hf. by apply elem_of_nil in Hf.
Qed.

(** ** A command line that the processor rejects *)

Lemma ctor_rejected (args : list Arg) (c : Locals) :
  proc args locals0 = (c, false) →
  ConcurApp_ctor args = (set_status 2 (this c), [ev_parse_error]).
Proof. unfold ConcurApp_ctor. by intros ->. Qed.

Lemma operator_call_nonzero (fs : FileSystem) (app : ConcurApp) :
  status_ app ≠ 0 → operator_call fs app = (MkWorld app [], status_ app).
Proof. intros Hs. unfold operator_call. by rewrite bool_decide_eq_true_2. Qed.

Lemma rejected_run (pre post : list Arg) (a : Arg) (c : Locals) :
  proc pre locals0 = (c, true) → handle a c = None →
  let app := (ConcurApp_ctor (pre ++ a :: post)).1 in
  proc (pre ++ a :: post) locals0 = (c, false)
  ∧ app = set_status 2 (this c)
  ∧ ∀ fs, operator_call fs app = (MkWorld app [], 2).
Proof.
  intros Hpre Ha app.
  pose proof (proc_fail_at pre post a _ _ Hpre Ha) as Hfail.
  assert (Happ : app = set_status 2 (this c)).
  { unfold app. by rewrite (ctor_rejected _ _ Hfail). }
  split_and!; [done..|].
  intros fs. rewrite operator_call_nonzero; by rewrite Happ.
Qed.

(** ** Bounds of the numeric arguments *)

Lemma parse_bounded_U16_Some (str : string) (lo hi n : Z) :
  parse_bounded_numeric_string_U16 str lo hi = Some n ↔
  parse_numeric_string_U16 str = Some n ∧ lo ≤ n ∧ n ≤ hi.
Proof.
  unfold parse_bounded_numeric_string_U16.
  destruct (parse_numeric_string_U16 str) as [v|].
  - case_bool_decide as Hb; split.
    + intros [= ->]. by destruct Hb.
    + by intros ([= ->] & _).
    + done.
    + intros ([= ->] & ? & ?). by destruct Hb.
  - split; [done | by intros [? _]].
Qed.

Lemma parse_bounded_F32_Some (str : string) (lo hi v : Q) :
  parse_bounded_numeric_string_F32 str lo hi = Some v ↔
  parse_numeric_string_F32 str = Some v ∧ (lo <= v)%Q ∧ (v <= hi)%Q.
Proof.
  unfold parse_bounded_numeric_string_F32.
  destruct (parse_numeric_string_F32 str) as [w|];
    [|split; [done | by intros [? _]]].
  destruct (Qle_bool lo w) eqn:Hlo, (Qle_bool w hi) eqn:Hhi; simpl.
  - apply Qle_bool_iff in Hlo, Hhi. split.
    + by intros [= ->].
    + by intros ([= ->] & _).
  - split; [done|]. intros (? & _ & Hle); simplify_eq.
    apply Qle_bool_iff in Hle. congruence.
  - split; [done|]. intros (? & Hle & _); simplify_eq.
    apply Qle_bool_iff in Hle. congruence.
  - split; [done|]. intros (? & Hle & _); simplify_eq.
    apply Qle_bool_iff in Hle. congruence.
Qed.

Lemma declares_in_range (a : Arg) (n : Z) :
  n ∈ declares a → 1 ≤ n ∧ n ≤ 256.
Proof.
  destruct a; simpl; intros Hn;
    try (by apply elem_of_nil in Hn);
    try (repeat (apply elem_of_cons in Hn as [->|Hn]);
         [lia..|by apply elem_of_nil in Hn]).
  destruct (parse_bounded_numeric_string_U16 str 1 256) as [size|] eqn:Hp;
    [|by apply elem_of_nil in Hn].
  apply list_elem_of_singleton in Hn as ->.
  by apply parse_bounded_U16_Some in Hp as (_ & ? & ?).
Qed.

Lemma proc_sizes_in_range (l : list Arg) (c c' : Locals) (ok : bool) :
  proc l c = (c', ok) →
  (∀ n, n ∈ dom (output_sizes_ (this c)) → 1 ≤ n ∧ n ≤ 256) →
  ∀ n, n ∈ dom (output_sizes_ (this c')) → 1 ≤ n ∧ n ≤ 256.
Proof.
  revert c. induction l as [|a l IH]; intros c Hp Hc.
  - by simplify_eq/=.
  - simpl in Hp. destruct (handle a c) as [c1|] eqn:Ha; [|by simplify_eq].
    apply (IH _ Hp). intros n [h Hn]%elem_of_dom.
    destruct (decide (n ∈ declares a)) as [Hin|Hin].
    + by apply (declares_in_range a).
    + rewrite (handle_not_declared _ _ _ _ Ha Hin) in Hn.
      apply Hc, elem_of_dom. by exists h.
Qed.

(** C7.  Size arguments are bounded: an accepted [-s] argument denotes an
    integer in 1..=256, which becomes the key of the recorded request; an
    argument that denotes an integer outside that range makes the handler
    throw, so that no request is recorded for it, construction ends with
    status 2 (argument-parse error) and the call returns 2; and every edge
    length stored by an accepted prefix of the command line is in 1..=256. *)
Theorem size_argument_bounds (pre post : list Arg) (str : string) (c : Locals) :
  proc pre locals0 = (c, true) →
  (∀ c', handle (opt_size str) c = Some c' →
     ∃ n, parse_numeric_string_U16 str = Some n ∧ 1 ≤ n ∧ n ≤ 256
          ∧ output_sizes_ (this c')
            = <[n := hotspot c]> (output_sizes_ (this c)))
  ∧ (∀ v, parse_numeric_string_U16 str = Some v → ¬ (1 ≤ v ∧ v ≤ 256) →
       let app := (ConcurApp_ctor (pre ++ opt_size str :: post)).1 in
       handle (opt_size str) c = None
       ∧ status_ app = 2
       ∧ output_sizes_ app = output_sizes_ (this c)
       ∧ ∀ fs, operator_call fs app = (MkWorld app [], 2))
  ∧ (∀ n, n ∈ dom (output_sizes_ (this c)) → 1 ≤ n ∧ n ≤ 256).
Proof.
  intros Hpre. split_and!.
  - intros c' Hh. simpl in Hh.
    destruct (parse_bounded_numeric_string_U16 str 1 256) as [n|] eqn:Hp;
      [|done].
    simplify_eq. apply parse_bounded_U16_Some in Hp as (? & ? & ?).
    by exists n.
  - intros v Hv Hout app.
    assert (Hnone : handle (opt_size str) c = None).
    { simpl.
      destruct (parse_bounded_numeric_string_U16 str 1 256) as [n|] eqn:Hp;
        [|done].
      apply parse_bounded_U16_Some in Hp as (? & ? & ?). simplify_eq. lia. }
    split; [done|].
    destruct (rejected_run pre post _ _ Hpre Hnone) as (_ & Happ & Hrun).
    fold app in Happ, Hrun. split_and!; [by rewrite Happ..|done].
  - apply (proc_sizes_in_range _ _ _ _ Hpre). simpl.
    intros n Hn. by rewrite dom_empty_L in Hn.
Qed.

(** C8.  Hotspot arguments are bounded: an accepted [-x] or [-y] argument
    denotes a value in [0,1], which becomes the corresponding coordinate of
    the current hotspot while the other coordinate stays; an argument that
    denotes a value outside [0,1] makes the handler throw, so that the
    locals (the hotspot among them) are as the earlier options left them,
    construction ends with status 2 (argument-parse error) and the call
    returns 2. *)
Theorem hotspot_argument_bounds (pre post : list Arg) (str : string) (c : Locals) :
  proc pre locals0 = (c, true) →
  (∀ c', handle (opt_hotspot_x str) c = Some c' →
     ∃ v, parse_numeric_string_F32 str = Some v ∧ (0 <= v)%Q ∧ (v <= 1)%Q
          ∧ hotspot c' = Vec2 v (y (hotspot c)))
  ∧ (∀ c', handle (opt_hotspot_y str) c = Some c' →
     ∃ v, parse_numeric_string_F32 str = Some v ∧ (0 <= v)%Q ∧ (v <= 1)%Q
          ∧ hotspot c' = Vec2 (x (hotspot c)) v)
  ∧ (∀ v a, parse_numeric_string_F32 str = Some v →
       ¬ ((0 <= v)%Q ∧ (v <= 1)%Q) →
       a = opt_hotspot_x str ∨ a = opt_hotspot_y str →
       let app := (ConcurApp_ctor (pre ++ a :: post)).1 in
       handle a c = None
       ∧ proc (pre ++ a :: post) locals0 = (c, false)
       ∧ status_ app = 2
       ∧ ∀ fs, operator_call fs app = (MkWorld app [], 2)).
Proof.
  intros Hpre. split_and!.
  - intros c' Hh. simpl in Hh.
    destruct (parse_bounded_numeric_string_F32 str 0 1) as [v|] eqn:Hp;
      [|done].
    simplify_eq. apply parse_bounded_F32_Some in Hp as (? & ? & ?).
    by exists v.
  - intros c' Hh. simpl in Hh.
    destruct (parse_bounded_numeric_string_F32 str 0 1) as [v|] eqn:Hp;
      [|done].
    simplify_eq. apply parse_bounded_F32_Some in Hp as (? & ? & ?).
    by exists v.
  - intros v a Hv Hout Ha app.
    assert (Hnone : handle a c = None).
    { destruct Ha as [-> | ->]; simpl;
        (destruct (parse_bounded_numeric_string_F32 str 0 1) as [w|] eqn:Hp;
           [|done]);
        apply parse_bounded_F32_Some in Hp as (? & ? & ?); simplify_eq;
        by destruct Hout. }
    split; [done|].
    destruct (rejected_run pre post _ _ Hpre Hnone) as (Hfail & Happ & Hrun).
    fold app in Happ, Hrun. split_and!; [done|by rewrite Happ|done].
Qed.

(** ** A command line without output path, help or version *)

Lemma handle_quiet (a : Arg) (c c' : Locals) :
  handle a c = Some c' →
  is_output_path a = false → requests_help_or_version a = false →
  show_help c' = show_help c ∧ show_version c' = show_version c
  ∧ help_query c' = help_query c
  ∧ output_path_ (this c') = output_path_ (this c).
Proof.
  destruct a; simpl; intros Hh Ho Hr; simplify_eq; try done.
  - destruct (parse_bounded_numeric_string_F32 _ _ _); by simplify_eq.
  - destruct (parse_bounded_numeric_string_F32 _ _ _); by simplify_eq.
  - destruct (parse_bounded_numeric_string_U16 _ _ _); by simplify_eq.
  - destruct (parse_verbosity _); by simplify_eq.
Qed.

Lemma proc_quiet (l : list Arg) (c c' : Locals) :
  proc l c = (c', true) →
  Forall (λ a, is_output_path a = false
               ∧ requests_help_or_version a = false) l →
  show_help c' = show_help c ∧ show_version c' = show_version c
  ∧ help_query c' = help_query c
  ∧ output_path_ (this c') = output_path_ (this c).
Proof.
  revert c. induction l as [|a l IH]; intros c Hp Hall.
  - by simplify_eq/=.
  - apply proc_ok_cons in Hp as (c1 & Ha & Hp).
    apply Forall_cons in Hall as [[Ho Hr] Hall].
    destruct (IH _ Hp Hall) as (-> & -> & -> & ->).
    by apply (handle_quiet a).
Qed.

(** C9.  When the processor accepts a command line that gives no output
    path and asks for neither help nor version, the constructor sets status
    1 and shows the help with the license texts added, and the call returns
    1 at once: nothing is logged, no library call is made, and the object
    is unchanged. *)
Theorem missing_output_path (args : list Arg) (c : Locals) :
  proc args locals0 = (c, true) →
  Forall (λ a, is_output_path a = false
               ∧ requests_help_or_version a = false) args →
  ConcurApp_ctor args =
    (set_status 1 (this c),
     [ev_license BE_LICENSE; ev_license BE_COPYRIGHT; ev_describe ""])
  ∧ ∀ fs, operator_call fs (ConcurApp_ctor args).1
          = (MkWorld (ConcurApp_ctor args).1 [], 1).
Proof.
  intros Hp Hall.
  destruct (proc_quiet _ _ _ Hp Hall) as (Hh & Hv & Hq & Ho). simpl in *.
  assert (Hc : ConcurApp_ctor args =
    (set_status 1 (this c),
     [ev_license BE_LICENSE; ev_license BE_COPYRIGHT; ev_describe ""])).
  { unfold ConcurApp_ctor. rewrite Hp, Hh, Hv, Hq, Ho. done. }
  split; [done|]. intros fs. rewrite Hc. simpl.
  by rewrite operator_call_nonzero.
Qed.

(** C10.  A nonzero status left by construction is returned at once: the
    call returns that status, its trace is empty (no input path is
    examined, no library call is made, nothing is logged), and the object,
    with its inputs, sizes and output path, is unchanged. *)
Theorem nonzero_status_returns_immediately (fs : FileSystem) (app : ConcurApp) :
  status_ app ≠ 0 →
  operator_call fs app = (MkWorld app [], status_ app).
Proof. apply operator_call_nonzero. Qed.

(** ** The input loop *)

Lemma set_status_same (a : ConcurApp) : set_status (status_ a) a = a.
Proof. by destruct a. Qed.

Lemma check_input_run (fs : FileSystem) (p : Path) (w : World) :
  check_input fs p w =
  (MkWorld (match classify_input fs p with
            | input_bad => set_status 3 (w_app w)
            | _ => w_app w
            end)
           (w_trace w ++ check_events fs p),
   match classify_input fs p with
   | input_throws => None
   | _ => Some tt
   end).
Proof.
  unfold check_input, classify_input, check_events, mbind, M_bind, call,
    assign_status, emit, mret, M_ret.
  destruct (fs_exists fs p) as [[|]|]; simpl;
    [destruct (fs_is_regular_file fs p) as [[|]|]; simpl|..];
    by rewrite <- ?app_assoc.
Qed.

Lemma for_each_check_ok (fs : FileSystem) (l : list (Path * input_type))
    (w : World) :
  Forall (λ p, classify_input fs p ≠ input_throws) l.*1 →
  for_each l (λ pair, check_input fs pair.1) w =
  (MkWorld
     (if bool_decide (Exists (λ p, classify_input fs p = input_bad) l.*1)
      then set_status 3 (w_app w) else w_app w)
     (w_trace w ++ flat_map (check_events fs) l.*1),
   Some tt).
Proof.
  revert w. induction l as [|[p t] l IH]; intros w Hall.
  - simpl. unfold mret, M_ret. rewrite app_nil_r.
    by destruct w.
  - apply Forall_cons in Hall as [Hp Hall]. simpl in Hp.
    cbn [for_each]. unfold mbind, M_bind at 1.
    rewrite check_input_run. simpl.
    destruct (classify_input fs p) eqn:Hc; [| |done].
    + rewrite (IH _ Hall). cbn [w_app w_trace fmap list_fmap flat_map fst].
      rewrite <- app_assoc. f_equal. f_equal.
      repeat case_bool_decide; try done; exfalso.
      * match goal with Hn : ¬ Exists _ (_ :: _) |- _ => apply Hn end.
        by right.
      * match goal with He : Exists _ (_ :: _) |- _ =>
          apply Exists_cons in He as [He|He] end; [congruence|done].
    + rewrite (IH _ Hall). cbn [w_app w_trace fmap list_fmap flat_map fst].
      rewrite <- app_assoc. f_equal. f_equal.
      repeat case_bool_decide; try done; exfalso.
      * match goal with Hn : ¬ Exists _ (_ :: _) |- _ => apply Hn end.
        by left.
      * match goal with Hn : ¬ Exists _ (_ :: _) |- _ => apply Hn end.
        by left.
Qed.

Lemma for_each_check_throw (fs : FileSystem) (l : list (Path * input_type))
    (w : World) :
  Exists (λ p, classify_input fs p = input_throws) l.*1 →
  ∃ s t, for_each l (λ pair, check_input fs pair.1) w =
         (MkWorld (set_status s (w_app w)) (w_trace w ++ t), None).
Proof.
  revert w. induction l as [|[p ty] l IH]; intros w Hex.
  - by apply Exists_nil in Hex.
  - cbn [for_each]. unfold mbind, M_bind at 1.
    rewrite check_input_run. simpl.
    destruct (classify_input fs p) eqn:Hc.
    + apply Exists_cons in Hex as [Hx|Hx]; [simpl in Hx; congruence|].
      destruct (IH (MkWorld (w_app w) (w_trace w ++ check_events fs p)) Hx)
        as (s & t & ->).
      exists s, (check_events fs p ++ t). simpl. by rewrite <- app_assoc.
    + apply Exists_cons in Hex as [Hx|Hx]; [simpl in Hx; congruence|].
      destruct (IH (MkWorld (set_status 3 (w_app w))
                            (w_trace w ++ check_events fs p)) Hx)
        as (s & t & ->).
      exists s, (check_events fs p ++ t). simpl. by rewrite <- app_assoc.
    + exists (status_ (w_app w)), (check_events fs p).
      by rewrite set_status_same.
Qed.

Lemma read_inputs_run (fs : FileSystem) (w : World) :
  ∃ t, read_inputs fs w =
       (MkWorld (set_status (inputs_status fs (w_app w)) (w_app w))
                (w_trace w ++ t), Some tt)
       ∧ (Forall (λ p, classify_input fs p ≠ input_throws)
                 (map_to_list (inputs_ (w_app w))).*1 →
          t = flat_map (check_events fs) (map_to_list (inputs_ (w_app w))).*1).
Proof.
  unfold read_inputs, try_catch, inputs_status, get_app.
  unfold mbind, M_bind at 1. simpl.
  set (l := map_to_list (inputs_ (w_app w))).
  destruct (decide (Exists (λ p, classify_input fs p = input_throws) l.*1))
    as [Hex|Hnex].
  - destruct (for_each_check_throw fs l w Hex) as (s & t & ->).
    rewrite bool_decide_eq_true_2 by done.
    exists (t ++ [ev_error "Filesystem error while reading inputs!" None]).
    split.
    + unfold mbind, M_bind, assign_status, emit. simpl.
      by rewrite <- app_assoc.
    + intros Hall. exfalso. apply Exists_exists in Hex as (p & Hin & Hp).
      by apply (proj1 (Forall_forall _ _) Hall p Hin).
  - assert (Hall : Forall (λ p, classify_input fs p ≠ input_throws) l.*1).
    { apply Forall_forall. intros p Hin Hp. apply Hnex.
      apply Exists_exists. by exists p. }
    rewrite (for_each_check_ok fs l w Hall).
    rewrite (bool_decide_eq_false_2 _ Hnex).
    exists (flat_map (check_events fs) l.*1). split; [|done].
    case_bool_decide; [done|]. by rewrite set_status_same.
Qed.

(** ** The output path *)

Lemma configure_output_run (fs : FileSystem) (w : World) :
  ∃ q t, configure_output fs w =
    (MkWorld
       (set_output_path q
          (set_status
             (match classify_output fs (output_path_ (w_app w)) with
              | output_ok => status_ (w_app w)
              | output_blocked => 5
              | output_throws => 1
              end) (w_app w)))
       (w_trace w ++ ev_absolute (output_path_ (w_app w)) :: t),
     Some tt).
Proof.
  destruct w as [[ins sizes o st] tr].
  unfold configure_output, classify_output, try_catch, get_app, mbind, M_bind,
    call, assign_status, assign_output_path, emit, mret, M_ret. simpl.
  destruct (fs_absolute fs o) as [q|]; simpl;
    [|by eexists o, _; rewrite <- !app_assoc].
  exists q.
  destruct (fs_exists fs q) as [[|]|]; simpl;
    [destruct (fs_is_regular_file fs q) as [[|]|]; simpl
    |destruct (fs_exists fs (fs_parent_path fs q)) as [[|]|]; simpl;
       [|destruct (fs_create_directories fs (fs_parent_path fs q)); simpl|]
    |];
    eexists; by rewrite <- !app_assoc.
Qed.

Lemma operator_call_run (fs : FileSystem) (app : ConcurApp) :
  status_ app = 0 → output_path_ app ≠ "" →
  ∃ q t1 t2,
    operator_call fs app =
      (MkWorld
         (set_output_path q
            (set_status
               (match classify_output fs (output_path_ app) with
                | output_ok => inputs_status fs app
                | output_blocked => 5
                | output_throws => 1
                end) app))
         (t1 ++ ev_absolute (output_path_ app) :: t2),
       match classify_output fs (output_path_ app) with
       | output_ok => inputs_status fs app
       | output_blocked => 5
       | output_throws => 1
       end)
    ∧ (Forall (λ p, classify_input fs p ≠ input_throws)
              (map_to_list (inputs_ app)).*1 →
       t1 = flat_map (check_events fs) (map_to_list (inputs_ app)).*1).
Proof.
  intros Hs Ho.
  destruct (read_inputs_run fs (MkWorld app [])) as (t1 & Hr & Ht1).
  cbn [w_app w_trace] in *. rewrite app_nil_l in Hr.
  destruct (configure_output_run fs
    (MkWorld (set_status (inputs_status fs app) app) t1)) as (q & t2 & Hc).
  cbn [w_app w_trace] in Hc.
  unfold operator_call.
  rewrite bool_decide_eq_false_2 by (by intros ?).
  rewrite bool_decide_eq_false_2 by done.
  replace ((read_inputs fs;; configure_output fs) (MkWorld app []))
    with (configure_output fs
            (MkWorld (set_status (inputs_status fs app) app) t1))
    by (unfold mbind, M_bind; by rewrite Hr).
  rewrite Hc. exists q, t1, t2. split; [|done]. simpl.
  by destruct (classify_output fs (output_path_ app)).
Qed.

(** C5.  A bad input path does not abort the run: whatever the input
    checks find, the call goes on to the output path (its first library
    call there, [fs::absolute], is in the trace); and when no query on an
    input throws, the trace begins with the checks of every input path in
    turn, each bad path followed by its own error report, before the output
    path is taken up. *)
Theorem input_errors_do_not_abort (fs : FileSystem) (app : ConcurApp) :
  status_ app = 0 → output_path_ app ≠ "" →
  let trace := w_trace (operator_call fs app).1 in
  let paths := (map_to_list (inputs_ app)).*1 in
  ev_absolute (output_path_ app) ∈ trace
  ∧ (Forall (λ p, classify_input fs p ≠ input_throws) paths →
       (∃ rest, trace = flat_map (check_events fs) paths
                        ++ ev_absolute (output_path_ app) :: rest)
     ∧ (∀ p, p ∈ paths → ev_exists p ∈ trace)
     ∧ (∀ p, p ∈ paths → fs_exists fs p = Some false →
          ev_error "Input path does not exist!" (Some p) ∈ trace)
     ∧ (∀ p, p ∈ paths → fs_exists fs p = Some true →
          fs_is_regular_file fs p = Some false →
          ev_error "Input path is not a file!" (Some p) ∈ trace)).
Proof.
  intros Hs Ho trace paths.
  destruct (operator_call_run fs app Hs Ho) as (q & t1 & t2 & Hrun & Ht1).
  assert (Htr : trace = t1 ++ ev_absolute (output_path_ app) :: t2).
  { unfold trace. by rewrite Hrun. }
  split.
  - rewrite Htr. apply elem_of_app. right. by left.
  - intros Hall. specialize (Ht1 Hall). fold paths in Ht1. subst t1.
    assert (Hin : ∀ p e, p ∈ paths → e ∈ check_events fs p → e ∈ trace).
    { intros p e Hp He. rewrite Htr. apply elem_of_app. left.
      apply list_elem_of_In, in_flat_map. exists p.
      by split; apply list_elem_of_In. }
    split_and!.
    + by exists t2.
    + intros p Hp. apply (Hin p _ Hp). unfold check_events.
      destruct (fs_exists fs p) as [[|]|];
        [destruct (fs_is_regular_file fs p) as [[|]|]|..]; by left.
    + intros p Hp He. apply (Hin p _ Hp). unfold check_events. rewrite He.
      right. by left.
    + intros p Hp He Hr. apply (Hin p _ Hp). unfold check_events.
      rewrite He, Hr. right. right. by left.
Qed.

(** ** The exit status *)

Lemma exit_status_run (fs : FileSystem) (args : list Arg) :
  let app := (ConcurApp_ctor args).1 in
  status_ app = 0 → output_path_ app ≠ "" →
  exit_status fs args =
  match classify_output fs (output_path_ app) with
  | output_ok => inputs_status fs app
  | output_blocked => 5
  | output_throws => 1
  end.
Proof.
  intros app Hs Ho. unfold exit_status. fold app.
  destruct (operator_call_run fs app Hs Ho) as (q & t1 & t2 & -> & _).
  done.
Qed.

(** C6 (amended).  The exit status is the status of the last error met.
    It is 2 when the processor rejects the command line.  When
    construction leaves status 0 and an output path, it is 5 when the
    output path exists and is not a regular file, and 1 when a library call
    on the output path throws; and when the output path raises no problem,
    it is 4 when a query on an input throws, 3 when no query throws and
    some input path does not exist or is not a regular file, and 0 when
    every input path is a regular file.  It is 0 as well when construction
    leaves status 0 and no output path. *)
Theorem exit_status_of_last_error (fs : FileSystem) (args : list Arg) :
  let app := (ConcurApp_ctor args).1 in
  let paths := (map_to_list (inputs_ app)).*1 in
  ((proc args locals0).2 = false → exit_status fs args = 2)
  ∧ (status_ app = 0 → output_path_ app = "" → exit_status fs args = 0)
  ∧ (status_ app = 0 → output_path_ app ≠ "" →
       (classify_output fs (output_path_ app) = output_blocked →
          exit_status fs args = 5)
     ∧ (classify_output fs (output_path_ app) = output_throws →
          exit_status fs args = 1)
     ∧ (classify_output fs (output_path_ app) = output_ok →
          (Exists (λ p, classify_input fs p = input_throws) paths →
             exit_status fs args = 4)
        ∧ (Forall (λ p, classify_input fs p ≠ input_throws) paths →
           Exists (λ p, classify_input fs p = input_bad) paths →
             exit_status fs args = 3)
        ∧ (Forall (λ p, classify_input fs p = input_ok) paths →
             exit_status fs args = 0))).
Proof.
  intros app paths. split_and!.
  - intros Hrej. unfold exit_status.
    destruct (proc args locals0) as [c ok] eqn:Hp. simpl in Hrej. subst ok.
    rewrite (ctor_rejected _ _ Hp). cbn [fst].
    by rewrite operator_call_nonzero.
  - intros Hs Ho. unfold exit_status, operator_call. fold app.
    rewrite bool_decide_eq_false_2 by (by intros ?).
    by rewrite bool_decide_eq_true_2.
  - intros Hs Ho. pose proof (exit_status_run fs args Hs Ho) as Hrun.
    fold app in Hrun. split_and!.
    + intros Hc. by rewrite Hrun, Hc.
    + intros Hc. by rewrite Hrun, Hc.
    + intros Hc. rewrite Hrun, Hc. unfold inputs_status. fold paths.
      split_and!.
      * intros Hex. by rewrite bool_decide_eq_true_2.
      * intros Hall Hex. rewrite bool_decide_eq_false_2.
        -- by rewrite bool_decide_eq_true_2.
        -- intros (p & Hin & Hp)%Exists_exists.
           by apply (proj1 (Forall_forall _ _) Hall p Hin).
      * intros Hall. rewrite !bool_decide_eq_false_2; [done|..].
        -- intros (p & Hin & Hp)%Exists_exists.
           pose proof (proj1 (Forall_forall _ _) Hall p Hin) as Hok.
           simpl in Hok. congruence.
        -- intros (p & Hin & Hp)%Exists_exists.
           pose proof (proj1 (Forall_forall _ _) Hall p Hin) as Hok.
           simpl in Hok. congruence.
Qed.

End Properties.

(** * The properties on the sample collaborators *)

(** Scenario D: of the two requests for size 16, one is left, with the
    second hotspot. *)
Lemma output_sizes_last_write_wins_witness :
  (Sample.process Sample.scenario_d Sample.start).2 = true
  ∧ filter (λ r, r.1 = 16)
      (map_to_list
         (output_sizes_ (this (Sample.process Sample.scenario_d Sample.start).1)))
    = [(16, Vec2 (75 # 100) 0)].
Proof.
  split; [vm_compute; reflexivity|].
  pose proof (proj2 (@output_sizes_last_write_wins Sample.env
      Sample.scenario_d Sample.start
      (Sample.process Sample.scenario_d Sample.start).1 eq_refl)
    [opt_hotspot_x "0.25"; opt_size "16"; opt_hotspot_x "0.75"]
    [nth0 "out.cur"] (opt_size "16") 16 eq_refl) as Hw.
  vm_compute in Hw |- *. apply Hw.
  - left.
  - repeat constructor. intros Hin. inversion Hin.
Defined.

(** The cursor example of the help text, run to the end: "The 16x16 image
    has the hotspot at 2,2, the 24x24 image has it at 3,3, and the 32x32
    image has it at 3,4", as normalized coordinates. *)
Example help_cursor_example :
  let app := (Sample.ctor Sample.cursor_example).1 in
  status_ app = 0
  ∧ output_path_ app = "cursor.cur"
  ∧ output_sizes_ app !! 16 = Some (Vec2 (2 # 16) (2 # 16))
  ∧ output_sizes_ app !! 24 = Some (Vec2 (2 # 16) (2 # 16))
  ∧ output_sizes_ app !! 32 = Some (Vec2 (3 # 32) (2 # 16))
  ∧ size (output_sizes_ app) = 3%nat.
Proof. vm_compute. by repeat split. Qed.

(** The help text's cursor example: [-S] and [-M] both record the hotspot
    set by [-xy 2/16]. *)
Lemma size_records_current_hotspot_witness :
  let pre := [opt_input "icon_image.tga"; opt_hotspot_x "2/16";
              opt_hotspot_y "2/16"] in
  let c1 := (Sample.process pre Sample.start).1 in
  let c2 := (Sample.process (pre ++ [flag_small]) Sample.start).1 in
  let c4 := (Sample.process (pre ++ [flag_small; flag_medium]) Sample.start).1 in
  hotspot c1 = Vec2 (2 # 16) (2 # 16)
  ∧ output_sizes_ (this c2) !! 16 = Some (Vec2 (2 # 16) (2 # 16))
  ∧ output_sizes_ (this c4) !! 24 = Some (Vec2 (2 # 16) (2 # 16)).
Proof.
  intros pre c1 c2 c4.
  destruct (@size_records_current_hotspot Sample.env pre flag_small
              Sample.start c1 c2 eq_refl eq_refl) as (Hh & H16 & H24).
  split_and!.
  - vm_compute in Hh |- *. exact Hh.
  - specialize (H16 16). vm_compute in H16 |- *. apply H16. left.
  - specialize (H24 [] flag_medium c2 c4 24 eq_refl (Forall_nil_2 _)
                    eq_refl eq_refl).
    vm_compute in H24 |- *. apply H24. left.
Defined.

(** A path declared twice is one entry, with the later hint. *)
Lemma inputs_keyed_by_path_witness :
  (Sample.process Sample.repeated_input Sample.start).2 = true
  ∧ inputs_ (this (Sample.process Sample.repeated_input Sample.start).1)
      !! "a.png" = Some png
  ∧ dom (inputs_ (this (Sample.process Sample.repeated_input Sample.start).1))
    = list_to_set ["a.png"; "a.png"].
Proof.
  split; [vm_compute; reflexivity|].
  destruct (@inputs_keyed_by_path Sample.env Sample.repeated_input
              (Sample.process Sample.repeated_input Sample.start).1 eq_refl)
    as [Hl Hd].
  split; [exact (Hl "a.png") | exact Hd].
Defined.

(** C4, as stated, fails: the command line below is accepted and declares
    two inputs, and the object holds one entry. *)
Lemma inputs_per_declaration_counterexample :
  status_ (Sample.ctor Sample.repeated_input).1 = 0
  ∧ declared_inputs Sample.repeated_input
    = [("a.png", automatic); ("a.png", png)]
  ∧ map_to_list (inputs_ (Sample.ctor Sample.repeated_input).1)
    = [("a.png", png)]
  ∧ map_to_list (inputs_ (Sample.ctor Sample.repeated_input).1)
    ≠ declared_inputs Sample.repeated_input.
Proof.
  split_and!; [vm_compute; reflexivity..|].
  vm_compute. intros Heq. discriminate Heq.
Qed.

(** A missing input and an input that is a directory are both reported,
    and the output path is taken up. *)
Lemma input_errors_do_not_abort_witness :
  let app := (Sample.ctor Sample.two_inputs).1 in
  let trace := w_trace (operator_call Sample.b_is_directory app).1 in
  status_ app = 0
  ∧ ev_error "Input path does not exist!" (Some "a.png") ∈ trace
  ∧ ev_error "Input path is not a file!" (Some "b.png") ∈ trace
  ∧ ev_absolute "out.ico" ∈ trace.
Proof.
  intros app trace.
  assert (Hs : status_ app = 0) by (vm_compute; reflexivity).
  assert (Ho : output_path_ app ≠ "") by (vm_compute; discriminate).
  destruct (input_errors_do_not_abort Sample.b_is_directory app Hs Ho)
    as [Habs Hall].
  destruct Hall as (_ & _ & Hmissing & Hnotfile).
  { vm_compute. repeat constructor; discriminate. }
  split_and!.
  - exact Hs.
  - apply (Hmissing "a.png"); [|vm_compute; reflexivity].
    vm_compute. left.
  - apply (Hnotfile "b.png"); [|vm_compute; reflexivity..].
    vm_compute. right. left.
  - exact Habs.
Defined.

(** C6, as stated, fails: an input path that does not exist does not make
    the exit status 3 when the output path is a directory, and a query that
    throws on an input does not make it 4. *)
Lemma exit_status_mapping_counterexample :
  status_ (Sample.ctor Sample.two_inputs).1 = 0
  ∧ (map_to_list (inputs_ (Sample.ctor Sample.two_inputs).1)).*1
    = ["a.png"; "b.png"]
  ∧ fs_exists Sample.output_is_directory "a.png" = Some false
  ∧ Sample.exit Sample.output_is_directory Sample.two_inputs = 5
  ∧ Sample.exit Sample.output_is_directory Sample.two_inputs ≠ 3
  ∧ fs_exists Sample.b_unreadable_output_is_directory "b.png" = None
  ∧ Sample.exit Sample.b_unreadable_output_is_directory Sample.two_inputs = 5
  ∧ Sample.exit Sample.b_unreadable_output_is_directory Sample.two_inputs ≠ 4.
Proof.
  split_and!; try (vm_compute; reflexivity); vm_compute; discriminate.
Qed.

(** Each exit status of the mapping, on a filesystem that produces it. *)
Lemma exit_status_of_last_error_witness :
  Sample.exit Sample.empty_fs [rejected] = 2
  ∧ Sample.exit Sample.output_is_directory Sample.two_inputs = 5
  ∧ Sample.exit Sample.output_unreadable Sample.two_inputs = 1
  ∧ Sample.exit Sample.b_unreadable Sample.two_inputs = 4
  ∧ Sample.exit Sample.b_is_directory Sample.two_inputs = 3
  ∧ Sample.exit Sample.both_regular Sample.two_inputs = 0
  ∧ Sample.exit Sample.empty_fs [opt_help ""] = 0.
Proof.
  assert (Hs : status_ (Sample.ctor Sample.two_inputs).1 = 0)
    by (vm_compute; reflexivity).
  assert (Ho : output_path_ (Sample.ctor Sample.two_inputs).1 ≠ "")
    by (vm_compute; discriminate).
  split_and!.
  - apply (@exit_status_of_last_error Sample.env Sample.empty_fs [rejected]).
    vm_compute; reflexivity.
  - apply (@exit_status_of_last_error Sample.env Sample.output_is_directory
             Sample.two_inputs); [exact Hs | exact Ho |].
    vm_compute; reflexivity.
  - apply (@exit_status_of_last_error Sample.env Sample.output_unreadable
             Sample.two_inputs); [exact Hs | exact Ho |].
    vm_compute; reflexivity.
  - apply (@exit_status_of_last_error Sample.env Sample.b_unreadable
             Sample.two_inputs); [exact Hs | exact Ho | |].
    + vm_compute; reflexivity.
    + vm_compute. right. left. reflexivity.
  - apply (@exit_status_of_last_error Sample.env Sample.b_is_directory
             Sample.two_inputs); [exact Hs | exact Ho | | |].
    + vm_compute; reflexivity.
    + vm_compute. repeat constructor; discriminate.
    + vm_compute. left. reflexivity.
  - apply (@exit_status_of_last_error Sample.env Sample.both_regular
             Sample.two_inputs); [exact Hs | exact Ho | |].
    + vm_compute; reflexivity.
    + vm_compute. repeat constructor.
  - apply (proj1 (proj2 (@exit_status_of_last_error Sample.env Sample.empty_fs
                            [opt_help ""]))); vm_compute; reflexivity.
Defined.

(** [-s 300] after [-S]: rejected, nothing recorded for it; [-s 64]:
    accepted and recorded. *)
Lemma size_argument_bounds_witness :
  let pre := [flag_small] in
  let c := (Sample.process pre Sample.start).1 in
  let app := (Sample.ctor (pre ++ opt_size "300" :: [nth0 "out.ico"])).1 in
  Sample.process pre Sample.start = (c, true)
  ∧ status_ app = 2
  ∧ output_sizes_ app = output_sizes_ (this c)
  ∧ operator_call Sample.empty_fs app = (MkWorld app [], 2)
  ∧ (∃ n, Sample.parse_U16 "64" = Some n ∧ 1 ≤ n ∧ n ≤ 256).
Proof.
  intros pre c app.
  assert (Hpre : Sample.process pre Sample.start = (c, true)) by reflexivity.
  split; [exact Hpre|].
  destruct (@size_argument_bounds Sample.env pre [nth0 "out.ico"] "300" c Hpre)
    as (_ & Hrej & _).
  destruct (Hrej 300) as (_ & Hst & Hsz & Hrun);
    [vm_compute; reflexivity | intros [_ Hle]; exact (Hle eq_refl)|].
  split_and!; [exact Hst | exact Hsz | exact (Hrun Sample.empty_fs) |].
  destruct (@size_argument_bounds Sample.env pre [] "64" c Hpre)
    as (Hacc & _ & _).
  destruct (Hacc (declare_size 64 c) eq_refl) as (n & Hn & Hlo & Hhi & _).
  by exists n.
Defined.

(** [-x 3/2] after [-y 4/16]: rejected, the locals stay; [-x 4/16]:
    accepted. *)
Lemma hotspot_argument_bounds_witness :
  let pre := [opt_hotspot_y "4/16"] in
  let c := (Sample.process pre Sample.start).1 in
  let args := pre ++ opt_hotspot_x "3/2" :: [flag_small; nth0 "out.cur"] in
  Sample.process pre Sample.start = (c, true)
  ∧ Sample.process args Sample.start = (c, false)
  ∧ status_ (Sample.ctor args).1 = 2
  ∧ (∃ v, Sample.parse_F32 "4/16" = Some v ∧ (0 <= v)%Q ∧ (v <= 1)%Q).
Proof.
  intros pre c args.
  assert (Hpre : Sample.process pre Sample.start = (c, true)) by reflexivity.
  split; [exact Hpre|].
  destruct (@hotspot_argument_bounds Sample.env pre
              [flag_small; nth0 "out.cur"] "3/2" c Hpre) as (_ & _ & Hrej).
  destruct (Hrej (3 # 2)%Q (opt_hotspot_x "3/2")) as (_ & Hfail & Hst & _);
    [vm_compute; reflexivity
    |intros [_ Hle]; exact (Hle eq_refl)
    |by left|].
  split_and!; [exact Hfail | exact Hst |].
  destruct (@hotspot_argument_bounds Sample.env pre [] "4/16" c Hpre)
    as (Hacc & _ & _).
  destruct (Hacc (set_hotspot (Vec2 (4 # 16) (y (hotspot c))) c) eq_refl)
    as (v & Hv & Hlo & Hhi & _).
  by exists v.
Defined.

(** An input and a size, but no output path: status 1, help and license
    texts, and the call returns 1 without a trace. *)
Lemma missing_output_path_witness :
  let args := [opt_input "a.png"; flag_small] in
  status_ (Sample.ctor args).1 = 1
  ∧ (Sample.ctor args).2
    = [ev_license BE_LICENSE; ev_license BE_COPYRIGHT; ev_describe ""]
  ∧ operator_call Sample.both_regular (Sample.ctor args).1
    = (MkWorld (Sample.ctor args).1 [], 1).
Proof.
  intros args.
  destruct (@missing_output_path Sample.env args
              (Sample.process args Sample.start).1 eq_refl) as [Hc Hrun].
  { repeat constructor. }
  unfold Sample.ctor. rewrite Hc at 1 2.
  split_and!; [reflexivity..|]. exact (Hrun Sample.both_regular).
Defined.

(** A rejected command line leaves status 2; the call returns it and does
    nothing else. *)
Lemma nonzero_status_returns_immediately_witness :
  status_ (Sample.ctor [opt_input "a.png"; opt_size "0"]).1 ≠ 0
  ∧ operator_call Sample.both_regular
      (Sample.ctor [opt_input "a.png"; opt_size "0"]).1
    = (MkWorld (Sample.ctor [opt_input "a.png"; opt_size "0"]).1 [], 2).
Proof.
  assert (Hs : status_ (Sample.ctor [opt_input "a.png"; opt_size "0"]).1 ≠ 0)
    by (vm_compute; discriminate).
  split; [exact Hs|].
  exact (nonzero_status_returns_immediately Sample.both_regular _ Hs).
Defined.

(** * Further properties of the constructor and of the call *)

Section FurtherProperties.

Context {env : Environment}.

(** ** Which command lines the processor accepts *)

Lemma handle_None_iff (a : Arg) (c : Locals) :
  handle a c = None ↔ handler_throws a = true.
Proof.
  destruct a; simpl; try (split; intros; discriminate); try done.
  - destruct (parse_bounded_numeric_string_F32 str 0 1); simpl;
      split; intros; done || discriminate.
  - destruct (parse_bounded_numeric_string_F32 str 0 1); simpl;
      split; intros; done || discriminate.
  - destruct (parse_bounded_numeric_string_U16 str 1 256); simpl;
      split; intros; done || discriminate.
  - destruct (parse_verbosity str); simpl;
      split; intros; done || discriminate.
Qed.

Lemma handle_Some_iff (a : Arg) (c : Locals) :
  is_Some (handle a c) ↔ handler_throws a = false.
Proof.
  rewrite <- not_eq_None_Some, handle_None_iff.
  by destruct (handler_throws a).
Qed.

Lemma proc_accepts_iff (args : list Arg) (c : Locals) :
  (proc args c).2 = true ↔ Forall (λ a, handler_throws a = false) args.
Proof.
  revert c. induction args as [|a args IH]; intros c; simpl.
  - split; [constructor | done].
  - rewrite Forall_cons. destruct (handle a c) as [c1|] eqn:Ha.
    + rewrite IH. split; [|by intros [_ ?]].
      intros Hall. split; [|done]. apply (handle_Some_iff a c). by exists c1.
    + apply handle_None_iff in Ha. rewrite Ha. simpl.
      split; [done | by intros [? _]].
Qed.

(** X1.  Whether a command line is accepted does not depend on the order
    of its arguments nor on what earlier handlers stored: the processor
    returns normally exactly when no argument by itself makes its handler
    throw; inputs, flags, the output path and help requests never do. *)
Theorem accepted_iff_no_handler_throws (args : list Arg) (c : Locals) :
  (proc args c).2 = true ↔ Forall (λ a, handler_throws a = false) args.
Proof. apply proc_accepts_iff. Qed.

Lemma accepted_prefix (pre : list Arg) (c : Locals) :
  Forall (λ a, handler_throws a = false) pre →
  proc pre c = ((proc pre c).1, true).
Proof.
  intros Hall. apply proc_accepts_iff with (c := c) in Hall.
  destruct (proc pre c) as [c1 ok]. simpl in *. by subst.
Qed.

(** X2.  The first argument whose handler throws ends the construction:
    the object keeps what the handlers before it stored and gets status 2,
    the only output is the error report (no help or version text, even if
    one was asked for before), and the arguments after it have no effect. *)
Theorem first_throw_ends_construction (pre post : list Arg) (a : Arg) :
  Forall (λ a, handler_throws a = false) pre →
  handler_throws a = true →
  ConcurApp_ctor (pre ++ a :: post)
  = (set_status 2 (this (proc pre locals0).1), [ev_parse_error]).
Proof.
  intros Hpre Ha. apply ctor_rejected.
  apply proc_fail_at; [by apply accepted_prefix | by apply handle_None_iff].
Qed.

(** ** The size flags *)

(** X3.  The size flags are shorthands, as their help texts say: [-A]
    anywhere on the command line acts as [-S -M -N -L -X] in its place, and
    each of [-S], [-M], [-N], [-L], [-X] acts as [-s] with a value that
    parses to 16, 24, 32, 48, 256. *)
Theorem size_flags_are_shorthands (pre post : list Arg) (c : Locals) :
  proc (pre ++ flag_all :: post) c
  = proc (pre ++ [flag_small; flag_medium; flag_normal; flag_large;
                  flag_extra_large] ++ post) c
  ∧ ∀ (str : string) (flag : Arg) (n : Z),
      (flag, n) ∈ [(flag_small, 16); (flag_medium, 24); (flag_normal, 32);
                   (flag_large, 48); (flag_extra_large, 256)] →
      parse_bounded_numeric_string_U16 str 1 256 = Some n →
      proc (pre ++ opt_size str :: post) c = proc (pre ++ flag :: post) c.
Proof.
  split.
  - rewrite !proc_app. by destruct (proc pre c) as [c1 [|]].
  - intros str flag n Hin Hp. rewrite !proc_app.
    destruct (proc pre c) as [c1 [|]]; [|done]. simpl. rewrite Hp.
    repeat (apply elem_of_cons in Hin as [Heq|Hin]; [by simplify_eq|]).
    by apply elem_of_nil in Hin.
Qed.

(** ** The stored sizes *)

Lemma handle_dom_output_sizes (a : Arg) (c c' : Locals) :
  handle a c = Some c' →
  dom (output_sizes_ (this c'))
  = dom (output_sizes_ (this c)) ∪ list_to_set (declares a).
Proof.
  intros Ha. apply set_eq. intros n.
  rewrite elem_of_union, elem_of_list_to_set, !elem_of_dom.
  rewrite (handle_output_sizes _ _ _ Ha), foldl_insert_lookup.
  case_bool_decide as Hn.
  - split; [by right | by eexists].
  - split; [by left | by intros [?|?]].
Qed.

(** X4.  The requested sizes are exactly the declared ones: after an
    accepted command line, the object has a request for an edge length
    exactly when it had one before or some argument declares that length;
    no handler removes a request and none stores an undeclared length. *)
Theorem output_sizes_are_the_declared (args : list Arg) (c c' : Locals) :
  proc args c = (c', true) →
  dom (output_sizes_ (this c'))
  = dom (output_sizes_ (this c)) ∪ list_to_set (args ≫= declares).
Proof.
  revert c. induction args as [|a args IH]; intros c Hp.
  - simplify_eq/=. by rewrite (right_id_L ∅ (∪)).
  - apply proc_ok_cons in Hp as (c1 & Ha & Hp).
    rewrite (IH _ Hp), (handle_dom_output_sizes _ _ _ Ha).
    rewrite bind_cons, list_to_set_app_L. by rewrite (assoc_L (∪)).
Qed.

(** ** Help, version and the output path *)

Lemma handle_requests (a : Arg) (c c' : Locals) :
  handle a c = Some c' →
  show_help c' = show_help c || is_help a
  ∧ show_version c' = show_version c || is_version a
  ∧ help_query c' = default (help_query c) (help_value a)
  ∧ output_path_ (this c') = default (output_path_ (this c)) (output_value a)
  ∧ status_ (this c') = status_ (this c).
Proof.
  destruct a; simpl; intros Hh;
    repeat match goal with
    | H : match ?p with Some _ => _ | None => _ end = Some _ |- _ =>
        destruct p; [|discriminate H]
    end;
    simplify_eq; simpl; rewrite ?orb_false_r, ?orb_true_r; done.
Qed.

Lemma default_last_cons {A : Type} (d : A) (o : option A) (l : list A) :
  default (default d o) (last l)
  = default d (last (match o with Some v => v :: l | None => l end)).
Proof. destruct o as [v|]; [|done]. rewrite last_cons. by destruct (last l). Qed.

Lemma proc_requests (args : list Arg) (c c' : Locals) :
  proc args c = (c', true) →
  show_help c' = show_help c || existsb is_help args
  ∧ show_version c' = show_version c || existsb is_version args
  ∧ help_query c' = default (help_query c) (last (omap help_value args))
  ∧ output_path_ (this c')
    = default (output_path_ (this c)) (last (omap output_value args))
  ∧ status_ (this c') = status_ (this c).
Proof.
  revert c. induction args as [|a args IH]; intros c Hp.
  - simplify_eq/=. by rewrite !orb_false_r.
  - apply proc_ok_cons in Hp as (c1 & Ha & Hp).
    destruct (IH _ Hp) as (-> & -> & -> & -> & ->).
    destruct (handle_requests _ _ _ Ha) as (-> & -> & -> & -> & ->).
    cbn [existsb omap list_omap]. rewrite !orb_assoc, !default_last_cons.
    done.
Qed.

Lemma no_help_no_value (args : list Arg) :
  existsb is_help args = false → omap help_value args = [].
Proof.
  induction args as [|a args IH]; [done|]. cbn [existsb omap list_omap].
  intros [Ha Hr]%orb_false_iff. rewrite (IH Hr). by destruct a.
Qed.

Lemma ctor_accepted_output (args : list Arg) :
  (proc args locals0).2 = true →
  let help := existsb is_help args in
  let version := existsb is_version args in
  let query := default "" (last (omap help_value args)) in
  let out := default "" (last (omap output_value args)) in
  let licenses := [ev_license BE_LICENSE; ev_license BE_COPYRIGHT] in
  output_path_ (ConcurApp_ctor args).1 = out
  ∧ status_ (ConcurApp_ctor args).1
    = (if negb help && negb version && bool_decide (out = "") then 1 else 0)
  ∧ (ConcurApp_ctor args).2
    = (if help then
         (if version then licenses else []) ++ [ev_describe query]
       else if version then
         licenses ++ [ev_describe_section cli_describe_section_prologue;
                      ev_describe_section cli_describe_section_license]
       else if bool_decide (out = "") then licenses ++ [ev_describe ""]
       else []).
Proof.
  intros Hok help version query out licenses.
  destruct (proc args locals0) as [c ok] eqn:Hp. simpl in Hok. subst ok.
  destruct (proc_requests _ _ _ Hp) as (Hh & Hv & Hq & Ho & Hs).
  simpl in Hh, Hv, Hq, Ho, Hs. fold help in Hh. fold version in Hv.
  fold query in Hq. fold out in Ho.
  assert (Hquery : help = false → query = "").
  { intros Hn. unfold query. by rewrite (no_help_no_value _ Hn). }
  unfold ConcurApp_ctor. rewrite Hp, Hh, Hv, Hq, Ho.
  destruct help, version; simpl; rewrite ?Hquery by done;
    try by rewrite ?Ho, ?Hs.
  case_bool_decide; simpl; by rewrite ?Ho, ?Hs.
Qed.

(** X5.  What an accepted command line makes the constructor print and
    leave as status.  With a help option, the help is described once, with
    the value of the last help option as filter, and the license texts are
    added only if the version was asked for as well.  With the version
    alone, the prologue and license sections are described.  With neither,
    nothing is printed when an output path was given; when none was given,
    the full help with the license texts is printed and the status is 1.
    The status is 0 in every other case, and the stored output path is the
    positional argument. *)
Theorem constructor_output (args : list Arg) :
  (proc args locals0).2 = true →
  let help := existsb is_help args in
  let version := existsb is_version args in
  let query := default "" (last (omap help_value args)) in
  let out := default "" (last (omap output_value args)) in
  let licenses := [ev_license BE_LICENSE; ev_license BE_COPYRIGHT] in
  output_path_ (ConcurApp_ctor args).1 = out
  ∧ status_ (ConcurApp_ctor args).1
    = (if negb help && negb version && bool_decide (out = "") then 1 else 0)
  ∧ (ConcurApp_ctor args).2
    = (if help then
         (if version then licenses else []) ++ [ev_describe query]
       else if version then
         licenses ++ [ev_describe_section cli_describe_section_prologue;
                      ev_describe_section cli_describe_section_license]
       else if bool_decide (out = "") then licenses ++ [ev_describe ""]
       else []).
Proof. apply ctor_accepted_output. Qed.

(** ** The complete trace of a call *)

Lemma inputs_events_no_throw (fs : FileSystem) (l : list Path) :
  Forall (λ p, classify_input fs p ≠ input_throws) l →
  inputs_events fs l = flat_map (check_events fs) l.
Proof.
  induction l as [|p l IH]; intros Hall; [done|].
  apply Forall_cons in Hall as [Hp Hall]. cbn [inputs_events flat_map].
  rewrite (IH Hall). by destruct (classify_input fs p).
Qed.

Lemma inputs_events_throw (fs : FileSystem) (l1 l2 : list Path) (p : Path) :
  Forall (λ p, classify_input fs p ≠ input_throws) l1 →
  classify_input fs p = input_throws →
  inputs_events fs (l1 ++ p :: l2) = flat_map (check_events fs) (l1 ++ [p]).
Proof.
  intros Hall Hp. induction l1 as [|p1 l1 IH]; cbn [app inputs_events flat_map].
  - by rewrite Hp.
  - apply Forall_cons in Hall as [Hp1 Hall]. rewrite (IH Hall).
    by destruct (classify_input fs p1).
Qed.

Lemma Exists_throws_skip (fs : FileSystem) (p : Path) (l : list Path) :
  classify_input fs p ≠ input_throws →
  bool_decide (Exists (λ p, classify_input fs p = input_throws) (p :: l))
  = bool_decide (Exists (λ p, classify_input fs p = input_throws) l).
Proof.
  intros Hp. apply bool_decide_ext. rewrite Exists_cons.
  split; [by intros [?|?] | by right].
Qed.

Lemma for_each_check_trace (fs : FileSystem) (l : list (Path * input_type))
    (w : World) :
  ∃ s, for_each l (λ pair, check_input fs pair.1) w =
       (MkWorld (set_status s (w_app w))
                (w_trace w ++ inputs_events fs l.*1),
        if bool_decide (Exists (λ p, classify_input fs p = input_throws) l.*1)
        then None else Some tt).
Proof.
  revert w. induction l as [|[p ty] l IH]; intros w.
  - exists (status_ (w_app w)). rewrite set_status_same. simpl.
    rewrite app_nil_r. by destruct w.
  - cbn [for_each]. unfold mbind, M_bind at 1. rewrite check_input_run.
    cbn [fmap list_fmap fst inputs_events].
    destruct (classify_input fs p) eqn:Hc.
    + destruct (IH (MkWorld (w_app w) (w_trace w ++ check_events fs p)))
        as (s & ->).
      exists s. cbn [w_app w_trace]. rewrite <- app_assoc.
      by rewrite Exists_throws_skip by congruence.
    + destruct (IH (MkWorld (set_status 3 (w_app w))
                            (w_trace w ++ check_events fs p))) as (s & ->).
      exists s. cbn [w_app w_trace]. rewrite <- app_assoc.
      by rewrite Exists_throws_skip by congruence.
    + exists (status_ (w_app w)). rewrite set_status_same, app_nil_r.
      by rewrite bool_decide_eq_true_2 by by left.
Qed.

Lemma read_inputs_trace (fs : FileSystem) (w : World) :
  read_inputs fs w =
  (MkWorld (set_status (inputs_status fs (w_app w)) (w_app w))
           (w_trace w ++ read_events fs (w_app w)), Some tt).
Proof.
  destruct (read_inputs_run fs w) as (t & Hrun & _).
  rewrite Hrun. f_equal. f_equal. f_equal.
  revert Hrun. unfold read_inputs, try_catch, get_app, read_events.
  unfold mbind, M_bind at 1. cbn [w_app].
  destruct (for_each_check_trace fs (map_to_list (inputs_ (w_app w))) w)
    as (s & ->).
  case_bool_decide.
  - unfold mbind, M_bind, assign_status, emit, reading_error. simpl.
    rewrite <- app_assoc. intros [= _ Ht]. by apply app_inv_head in Ht.
  - rewrite app_nil_r. intros [= _ Ht]. by apply app_inv_head in Ht.
Qed.

Lemma configure_output_trace (fs : FileSystem) (w : World) :
  configure_output fs w =
  (MkWorld
     (set_output_path
        (default (output_path_ (w_app w))
                 (fs_absolute fs (output_path_ (w_app w))))
        (set_status
           (match classify_output fs (output_path_ (w_app w)) with
            | output_ok => status_ (w_app w)
            | output_blocked => 5
            | output_throws => 1
            end) (w_app w)))
     (w_trace w ++ output_events fs (output_path_ (w_app w))),
   Some tt).
Proof.
  destruct w as [[ins sizes o st] tr].
  unfold configure_output, classify_output, output_events, try_catch, get_app,
    mbind, M_bind, call, assign_status, assign_output_path, emit, mret, M_ret,
    configuring_error.
  simpl.
  destruct (fs_absolute fs o) as [q|]; simpl;
    [|by rewrite <- !app_assoc].
  destruct (fs_exists fs q) as [[|]|]; simpl;
    [destruct (fs_is_regular_file fs q) as [[|]|]; simpl
    |destruct (fs_exists fs (fs_parent_path fs q)) as [[|]|]; simpl;
       [|destruct (fs_create_directories fs (fs_parent_path fs q)); simpl|]
    |];
    by rewrite <- !app_assoc.
Qed.

Lemma operator_call_full (fs : FileSystem) (app : ConcurApp) :
  status_ app = 0 → output_path_ app ≠ "" →
  let st := match classify_output fs (output_path_ app) with
            | output_ok => inputs_status fs app
            | output_blocked => 5
            | output_throws => 1
            end in
  operator_call fs app =
  (MkWorld
     (set_output_path
        (default (output_path_ app) (fs_absolute fs (output_path_ app)))
        (set_status st app))
     (read_events fs app ++ output_events fs (output_path_ app)),
   st).
Proof.
  intros Hs Ho st. unfold operator_call.
  rewrite bool_decide_eq_false_2 by (by intros ?).
  rewrite bool_decide_eq_false_2 by done.
  replace ((read_inputs fs;; configure_output fs) (MkWorld app []))
    with (configure_output fs
            (MkWorld (set_status (inputs_status fs app) app)
                     (read_events fs app)))
    by (unfold mbind, M_bind; by rewrite read_inputs_trace).
  rewrite configure_output_trace. unfold st. simpl.
  by destruct (classify_output fs (output_path_ app)).
Qed.

(** ** What a call changes *)

Lemma operator_call_skipped (fs : FileSystem) (app : ConcurApp) :
  ¬ (status_ app = 0 ∧ output_path_ app ≠ "") →
  operator_call fs app = (MkWorld app [], status_ app).
Proof.
  intros Hn. unfold operator_call. case_bool_decide as Hs; [done|].
  case_bool_decide as Ho; [done|]. exfalso. apply Hn. split; [|done].
  destruct (decide (status_ app = 0)) as [?|Hne]; [done|]. by destruct Hs.
Qed.

(** X6.  A call changes nothing but the status and the output path: the
    inputs and the requested sizes are as before; the output path is
    replaced by the result of [fs::absolute] when the call gets that far
    and [fs::absolute] returns, and is as before otherwise; and the value
    returned is the status the object is left with. *)
Theorem call_changes_status_and_output_path (fs : FileSystem) (app : ConcurApp) :
  let app' := w_app (operator_call fs app).1 in
  inputs_ app' = inputs_ app
  ∧ output_sizes_ app' = output_sizes_ app
  ∧ output_path_ app'
    = (if bool_decide (status_ app = 0 ∧ output_path_ app ≠ "")
       then default (output_path_ app) (fs_absolute fs (output_path_ app))
       else output_path_ app)
  ∧ (operator_call fs app).2 = status_ app'.
Proof.
  intros app'. unfold app'. case_bool_decide as Hc.
  - destruct Hc as [Hs Ho]. by rewrite (operator_call_full fs app Hs Ho).
  - by rewrite (operator_call_skipped fs app Hc).
Qed.

Lemma operator_call_returns_status (fs : FileSystem) (app : ConcurApp) :
  (operator_call fs app).2 = status_ (w_app (operator_call fs app).1).
Proof.
  destruct (decide (status_ app = 0 ∧ output_path_ app ≠ "")) as [[Hs Ho]|Hc].
  - by rewrite (operator_call_full fs app Hs Ho).
  - by rewrite (operator_call_skipped fs app Hc).
Qed.

(** X7.  An error is final: once a call has returned a nonzero status,
    every later call on the object, on whatever filesystem, returns that
    status at once, with an empty trace and the object unchanged. *)
Theorem error_status_is_final (fs fs' : FileSystem) (app : ConcurApp) :
  (operator_call fs app).2 ≠ 0 →
  operator_call fs' (w_app (operator_call fs app).1)
  = (MkWorld (w_app (operator_call fs app).1) [], (operator_call fs app).2).
Proof.
  intros Hne. rewrite operator_call_returns_status in Hne |- *.
  by apply operator_call_nonzero.
Qed.

(** X8.  The program exits with one of the six codes that the constructor
    documents with [exit_code]: 0, 1, 2, 3, 4 or 5. *)
Theorem exit_status_is_documented (fs : FileSystem) (args : list Arg) :
  exit_status fs args ∈ [0; 1; 2; 3; 4; 5].
Proof.
  unfold exit_status.
  destruct (proc args locals0) as [c ok] eqn:Hp. destruct ok.
  - destruct (proc_requests _ _ _ Hp) as (_ & _ & _ & _ & Hs). simpl in Hs.
    assert (Hst : status_ (ConcurApp_ctor args).1 = 0
                  ∨ status_ (ConcurApp_ctor args).1 = 1).
    { unfold ConcurApp_ctor. rewrite Hp.
      destruct (negb (show_help c) && negb (show_version c)
                && bool_decide (output_path_ (this c) = "")); simpl; auto. }
    destruct Hst as [Hst|Hst].
    + destruct (decide (output_path_ (ConcurApp_ctor args).1 = "")) as [Ho|Ho].
      * rewrite operator_call_skipped by (by intros [_ ?]).
        simpl. rewrite Hst. set_solver.
      * rewrite (operator_call_full fs _ Hst Ho). simpl.
        destruct (classify_output fs _); [|set_solver..].
        unfold inputs_status. repeat case_bool_decide; [set_solver..|].
        rewrite Hst. set_solver.
    + rewrite operator_call_nonzero by (rewrite Hst; done).
      simpl. rewrite Hst. set_solver.
  - rewrite (ctor_rejected _ _ Hp). rewrite operator_call_nonzero by done.
    simpl. set_solver.
Qed.

(** ** The library calls of a call *)

Lemma check_events_no_create (fs : FileSystem) (p : Path) :
  Forall (λ e, is_create_directories e = false) (check_events fs p).
Proof.
  unfold check_events.
  destruct (fs_exists fs p) as [[|]|];
    [destruct (fs_is_regular_file fs p) as [[|]|]|..];
    by repeat constructor.
Qed.

Lemma read_events_no_create (fs : FileSystem) (app : ConcurApp) :
  Forall (λ e, is_create_directories e = false) (read_events fs app).
Proof.
  unfold read_events. apply Forall_app. split.
  - induction ((map_to_list (inputs_ app)).*1) as [|p l IH];
      cbn [inputs_events]; [constructor|].
    apply Forall_app. split; [apply check_events_no_create|].
    destruct (classify_input fs p); [done..|constructor].
  - case_bool_decide; by repeat constructor.
Qed.

(** X9.  When the output directory is created.  A call that gets to the
    output path calls [fs::create_directories], on the parent of the
    absolute output path, exactly when neither that path nor its parent
    exists; what the input checks found plays no part, so the directory is
    created even after input errors. *)
Theorem create_directories_condition (fs : FileSystem) (app : ConcurApp)
    (p : Path) :
  status_ app = 0 → output_path_ app ≠ "" →
  ev_create_directories p ∈ w_trace (operator_call fs app).1
  ↔ ∃ q, fs_absolute fs (output_path_ app) = Some q
         ∧ p = fs_parent_path fs q
         ∧ fs_exists fs q = Some false
         ∧ fs_exists fs (fs_parent_path fs q) = Some false.
Proof.
  intros Hs Ho. rewrite (operator_call_full fs app Hs Ho). cbn [fst w_trace].
  rewrite elem_of_app. unfold output_events. split.
  - intros [Hin|Hin].
    + pose proof (read_events_no_create fs app) as Hall.
      by apply (proj1 (Forall_forall _ _) Hall) in Hin.
    + destruct (fs_absolute fs (output_path_ app)) as [q|];
        [|unfold configuring_error in Hin; elem_cases Hin].
      exists q.
      destruct (fs_exists fs q) as [[|]|] eqn:Hq;
        [destruct (fs_is_regular_file fs q) as [[|]|]
        |destruct (fs_exists fs (fs_parent_path fs q)) as [[|]|] eqn:Hpq;
           [|destruct (fs_create_directories fs (fs_parent_path fs q))|]
        |];
        unfold configuring_error in Hin; elem_cases Hin;
        by simplify_eq.
  - intros (q & -> & -> & -> & ->). right. by do 3 right; left.
Qed.

(** X10.  [fs::create_directories] is called at most once, and no library
    call follows it: in the trace of a call, the events before it contain
    no other [fs::create_directories], and the events after it are log
    records only. *)
Theorem create_directories_is_last_call (fs : FileSystem) (app : ConcurApp)
    (p : Path) :
  ev_create_directories p ∈ w_trace (operator_call fs app).1 →
  ∃ before after,
    w_trace (operator_call fs app).1
    = before ++ ev_create_directories p :: after
    ∧ Forall (λ e, is_create_directories e = false) before
    ∧ Forall (λ e, is_fs_event e = false) after.
Proof.
  intros Hin.
  destruct (decide (status_ app = 0 ∧ output_path_ app ≠ "")) as [[Hs Ho]|Hc];
    [|rewrite (operator_call_skipped fs app Hc) in Hin;
      by apply elem_of_nil in Hin].
  revert Hin. rewrite (operator_call_full fs app Hs Ho). cbn [fst w_trace].
  rewrite elem_of_app. unfold output_events. intros [Hin|Hin].
  { pose proof (read_events_no_create fs app) as Hall.
    by apply (proj1 (Forall_forall _ _) Hall) in Hin. }
  destruct (fs_absolute fs (output_path_ app)) as [q|];
    [|unfold configuring_error in Hin; elem_cases Hin].
  destruct (fs_exists fs q) as [[|]|] eqn:Hq;
    [destruct (fs_is_regular_file fs q) as [[|]|]
    |destruct (fs_exists fs (fs_parent_path fs q)) as [[|]|] eqn:Hpq;
       [|destruct (fs_create_directories fs (fs_parent_path fs q))|]
    |];
    unfold configuring_error in Hin; elem_cases Hin; simplify_eq.
  - exists (read_events fs app
            ++ [ev_absolute (output_path_ app); ev_exists q;
                ev_exists (fs_parent_path fs q)]),
           [ev_short_verbose "Output path: " q].
    split_and!.
    + by rewrite <- app_assoc.
    + apply Forall_app. split; [apply read_events_no_create|].
      by repeat constructor.
    + by repeat constructor.
  - exists (read_events fs app
            ++ [ev_absolute (output_path_ app); ev_exists q;
                ev_exists (fs_parent_path fs q)]),
           [configuring_error].
    split_and!.
    + by rewrite <- app_assoc.
    + apply Forall_app. split; [apply read_events_no_create|].
      by repeat constructor.
    + by repeat constructor.
Qed.

Lemma inputs_events_is_regular_file (fs : FileSystem) (l : list Path) (p : Path) :
  ev_is_regular_file p ∈ inputs_events fs l → fs_exists fs p = Some true.
Proof.
  induction l as [|p' l IH]; cbn [inputs_events]; intros Hin;
    [by apply elem_of_nil in Hin|].
  apply elem_of_app in Hin as [Hin|Hin].
  - unfold check_events in Hin.
    destruct (fs_exists fs p') as [[|]|] eqn:He;
      [destruct (fs_is_regular_file fs p') as [[|]|]|..];
      elem_cases Hin; by simplify_eq.
  - destruct (classify_input fs p'); [by apply IH..|].
    by apply elem_of_nil in Hin.
Qed.

(** X11.  [fs::is_regular_file] is only asked about paths that
    [fs::exists] has reported as existing, for the inputs and for the
    output path alike. *)
Theorem is_regular_file_only_if_exists (fs : FileSystem) (app : ConcurApp)
    (p : Path) :
  ev_is_regular_file p ∈ w_trace (operator_call fs app).1 →
  fs_exists fs p = Some true.
Proof.
  intros Hin.
  destruct (decide (status_ app = 0 ∧ output_path_ app ≠ "")) as [[Hs Ho]|Hc];
    [|rewrite (operator_call_skipped fs app Hc) in Hin;
      by apply elem_of_nil in Hin].
  revert Hin. rewrite (operator_call_full fs app Hs Ho). cbn [fst w_trace].
  rewrite elem_of_app. intros [Hin|Hin].
  - unfold read_events in Hin. apply elem_of_app in Hin as [Hin|Hin].
    + by apply inputs_events_is_regular_file in Hin.
    + case_bool_decide; unfold reading_error in Hin; elem_cases Hin.
  - unfold output_events in Hin.
    destruct (fs_absolute fs (output_path_ app)) as [q|];
      [|unfold configuring_error in Hin; elem_cases Hin].
    destruct (fs_exists fs q) as [[|]|] eqn:Hq;
      [destruct (fs_is_regular_file fs q) as [[|]|]
      |destruct (fs_exists fs (fs_parent_path fs q)) as [[|]|] eqn:Hpq;
         [|destruct (fs_create_directories fs (fs_parent_path fs q))|]
      |];
      unfold configuring_error in Hin; elem_cases Hin; by simplify_eq.
Qed.

(** X12.  A query that throws ends the input loop: the inputs before it
    are checked as usual, the inputs after it are not examined, one error
    is reported for the whole loop, and the call goes on to the output
    path all the same. *)
Theorem throwing_query_ends_input_loop (fs : FileSystem) (app : ConcurApp)
    (checked skipped : list Path) (p : Path) :
  status_ app = 0 → output_path_ app ≠ "" →
  (map_to_list (inputs_ app)).*1 = checked ++ p :: skipped →
  Forall (λ p, classify_input fs p ≠ input_throws) checked →
  classify_input fs p = input_throws →
  w_trace (operator_call fs app).1
  = flat_map (check_events fs) (checked ++ [p])
    ++ ev_error "Filesystem error while reading inputs!" None
    :: output_events fs (output_path_ app).
Proof.
  intros Hs Ho Hpaths Hchecked Hp.
  rewrite (operator_call_full fs app Hs Ho). cbn [fst w_trace].
  unfold read_events. rewrite Hpaths.
  rewrite (inputs_events_throw fs _ _ _ Hchecked Hp).
  rewrite bool_decide_eq_true_2.
  - by rewrite <- app_assoc.
  - apply Exists_app. right. by left.
Qed.

(** X13.  Help requests and processing.  An accepted command line with an
    output path is processed whether or not help or the version was asked
    for: construction leaves status 0, and the call checks the inputs and
    takes up the output path.  Without an output path but with a help or
    version request, the call returns 0 at once, with an empty trace. *)
Theorem help_does_not_stop_processing (fs : FileSystem) (args : list Arg) :
  (proc args locals0).2 = true →
  let app := (ConcurApp_ctor args).1 in
  let out := default "" (last (omap output_value args)) in
  (out ≠ "" →
     status_ app = 0
     ∧ w_trace (operator_call fs app).1
       = read_events fs app ++ output_events fs out)
  ∧ (out = "" → existsb is_help args || existsb is_version args = true →
     operator_call fs app = (MkWorld app [], 0)).
Proof.
  intros Hok app out.
  destruct (ctor_accepted_output args Hok) as (Ho & Hs & _).
  fold app out in Ho, Hs. split.
  - intros Hout. rewrite bool_decide_eq_false_2, andb_false_r in Hs by done.
    split; [done|].
    rewrite (operator_call_full fs app Hs); [by rewrite Ho | by rewrite Ho].
  - intros Hout Hreq.
    assert (Hs0 : status_ app = 0).
    { rewrite Hs. apply orb_true_iff in Hreq as [-> | ->]; simpl; [done|].
      by rewrite andb_false_r. }
    rewrite operator_call_skipped; [by rewrite Hs0|].
    intros [_ Hne]. apply Hne. by rewrite Ho.
Qed.

(** ** Reading the returned status *)

Lemma not_throws_not_bad_is_ok (fs : FileSystem) (l : list Path) :
  ¬ Exists (λ p, classify_input fs p = input_throws) l →
  ¬ Exists (λ p, classify_input fs p = input_bad) l →
  Forall (λ p, classify_input fs p = input_ok) l.
Proof.
  intros Ht Hb. apply Forall_forall. intros p Hin.
  destruct (classify_input fs p) eqn:Hc; [done|..]; exfalso.
  - apply Hb, Exists_exists. by exists p.
  - apply Ht, Exists_exists. by exists p.
Qed.

(** X14.  What each returned status tells.  For a call that gets to work
    (status 0 and an output path), the status returned is 0 exactly when
    every input is an existing regular file and the output path raised no
    problem; 3 exactly when some input is missing or not a regular file, no
    query on an input threw and the output path raised no problem; 4
    exactly when a query on an input threw and the output path raised no
    problem; 5 exactly when the output path exists and is not a regular
    file; 1 exactly when a library call on the output path threw. *)
Theorem returned_status_table (fs : FileSystem) (app : ConcurApp) :
  status_ app = 0 → output_path_ app ≠ "" →
  let r := (operator_call fs app).2 in
  let paths := (map_to_list (inputs_ app)).*1 in
  let out := classify_output fs (output_path_ app) in
  (r = 0 ↔ out = output_ok
           ∧ Forall (λ p, classify_input fs p = input_ok) paths)
  ∧ (r = 3 ↔ out = output_ok
             ∧ Forall (λ p, classify_input fs p ≠ input_throws) paths
             ∧ Exists (λ p, classify_input fs p = input_bad) paths)
  ∧ (r = 4 ↔ out = output_ok
             ∧ Exists (λ p, classify_input fs p = input_throws) paths)
  ∧ (r = 5 ↔ out = output_blocked)
  ∧ (r = 1 ↔ out = output_throws).
Proof.
  intros Hs Ho r paths out. unfold r.
  rewrite (operator_call_full fs app Hs Ho). cbn [snd]. fold out.
  unfold inputs_status. fold paths. rewrite Hs.
  assert (Hnt : ¬ Exists (λ p, classify_input fs p = input_throws) paths →
                Forall (λ p, classify_input fs p ≠ input_throws) paths).
  { intros Hn. apply Forall_forall. intros p Hin Hp. apply Hn.
    apply Exists_exists. by exists p. }
  assert (Hok1 : Forall (λ p, classify_input fs p = input_ok) paths →
                 Exists (λ p, classify_input fs p = input_throws) paths →
                 False).
  { intros Hall (p & Hin & Hp)%Exists_exists.
    pose proof (proj1 (Forall_forall _ _) Hall p Hin) as Hp'.
    simpl in Hp'. congruence. }
  assert (Hok2 : Forall (λ p, classify_input fs p = input_ok) paths →
                 Exists (λ p, classify_input fs p = input_bad) paths →
                 False).
  { intros Hall (p & Hin & Hp)%Exists_exists.
    pose proof (proj1 (Forall_forall _ _) Hall p Hin) as Hp'.
    simpl in Hp'. congruence. }
  assert (Htn : Forall (λ p, classify_input fs p ≠ input_throws) paths →
                Exists (λ p, classify_input fs p = input_throws) paths →
                False).
  { intros Hall (p & Hin & Hp)%Exists_exists.
    by apply (proj1 (Forall_forall _ _) Hall p Hin). }
  pose proof (not_throws_not_bad_is_ok fs paths) as Hall_ok.
  destruct out;
    [destruct (decide (Exists (λ p, classify_input fs p = input_throws) paths))
       as [Ht|Ht];
       [rewrite bool_decide_eq_true_2 by done
       |rewrite bool_decide_eq_false_2 by done;
        destruct (decide (Exists (λ p, classify_input fs p = input_bad) paths))
          as [Hb|Hb];
          [rewrite bool_decide_eq_true_2 by done
          |rewrite bool_decide_eq_false_2 by done]]
    |..];
    split_and!;
    (split;
     [intros Heq; try discriminate Heq; split_and?; auto
     |intros Hyp; destruct_and?; try discriminate; try reflexivity;
      exfalso; eauto]).
Qed.

(** X15.  A command line without inputs is not an error by itself: with
    no input stored, the call makes no input query and logs no input
    error, takes up the output path directly, and returns what the output
    path alone decides: 0, 5 or 1. *)
Theorem no_inputs_is_not_an_error (fs : FileSystem) (app : ConcurApp) :
  status_ app = 0 → output_path_ app ≠ "" → inputs_ app = ∅ →
  w_trace (operator_call fs app).1 = output_events fs (output_path_ app)
  ∧ (operator_call fs app).2
    = match classify_output fs (output_path_ app) with
      | output_ok => 0
      | output_blocked => 5
      | output_throws => 1
      end.
Proof.
  intros Hs Ho Hi. rewrite (operator_call_full fs app Hs Ho).
  unfold read_events, inputs_status. rewrite Hi, map_to_list_empty. simpl.
  by rewrite Hs.
Qed.

End FurtherProperties.

(** * The further properties on the sample collaborators *)

(** [-s 512] after an input, [-S] and a help request: status 2, only the
    error report, the input and the size 16 stay stored, [-L] after it is
    not processed. *)
Lemma first_throw_ends_construction_witness :
  (Sample.ctor Sample.bad_size_late).2 = [ev_parse_error]
  ∧ status_ (Sample.ctor Sample.bad_size_late).1 = 2
  ∧ inputs_ (Sample.ctor Sample.bad_size_late).1 !! "a.png" = Some automatic
  ∧ output_sizes_ (Sample.ctor Sample.bad_size_late).1 !! 16
    = Some Sample.origin
  ∧ output_sizes_ (Sample.ctor Sample.bad_size_late).1 !! 48 = None.
Proof.
  assert (Hw : Sample.ctor Sample.bad_size_late
    = (set_status 2
         (this (Sample.process [opt_input "a.png"; flag_small; opt_help ""]
                  Sample.start).1),
       [ev_parse_error])).
  { refine (@first_throw_ends_construction Sample.env
      [opt_input "a.png"; flag_small; opt_help ""]
      [nth0 "out.ico"; flag_large] (opt_size "512") _ _).
    - repeat constructor.
    - vm_compute; reflexivity. }
  rewrite Hw. split_and!; vm_compute; reflexivity.
Defined.

(** [-A] against [-SMNLX], and [-s 24] against [-M]. *)
Lemma size_flags_are_shorthands_witness :
  Sample.process [opt_hotspot_x "0.5"; flag_all; nth0 "out.cur"] Sample.start
  = Sample.process [opt_hotspot_x "0.5"; flag_small; flag_medium; flag_normal;
                    flag_large; flag_extra_large; nth0 "out.cur"] Sample.start
  ∧ Sample.process [opt_hotspot_x "0.5"; opt_size "24"; nth0 "out.cur"]
      Sample.start
    = Sample.process [opt_hotspot_x "0.5"; flag_medium; nth0 "out.cur"]
        Sample.start.
Proof.
  destruct (@size_flags_are_shorthands Sample.env [opt_hotspot_x "0.5"]
              [nth0 "out.cur"] Sample.start) as [Hall Hone].
  split; [exact Hall|].
  apply (Hone "24" flag_medium 24).
  - right. left.
  - vm_compute; reflexivity.
Defined.

(** [-A]: the five standard sizes and no other. *)
Lemma output_sizes_are_the_declared_witness :
  (Sample.process Sample.nested_output Sample.start).2 = true
  ∧ dom (output_sizes_
           (this (Sample.process Sample.nested_output Sample.start).1))
    = ∅ ∪ list_to_set [16; 24; 32; 48; 256].
Proof.
  split; [vm_compute; reflexivity|].
  exact (@output_sizes_are_the_declared Sample.env Sample.nested_output
           Sample.start _ eq_refl).
Defined.

(** Two help options and the version with an output path; the version
    alone without one. *)
Lemma constructor_output_witness :
  (Sample.ctor Sample.help_then_output).2
  = [ev_license BE_LICENSE; ev_license BE_COPYRIGHT; ev_describe "hotspot"]
  ∧ status_ (Sample.ctor Sample.help_then_output).1 = 0
  ∧ (Sample.ctor Sample.version_only).2
    = [ev_license BE_LICENSE; ev_license BE_COPYRIGHT;
       ev_describe_section cli_describe_section_prologue;
       ev_describe_section cli_describe_section_license]
  ∧ status_ (Sample.ctor Sample.version_only).1 = 0.
Proof.
  destruct (@constructor_output Sample.env Sample.help_then_output)
    as (_ & Hs1 & Hd1); [vm_compute; reflexivity|].
  destruct (@constructor_output Sample.env Sample.version_only)
    as (_ & Hs2 & Hd2); [vm_compute; reflexivity|].
  split_and!; [exact Hd1 | exact Hs1 | exact Hd2 | exact Hs2].
Defined.

(** After a call that returned 3, a call on a repaired filesystem still
    returns 3 and does nothing. *)
Lemma error_status_is_final_witness :
  (operator_call Sample.empty_fs (Sample.ctor Sample.two_inputs).1).2 = 3
  ∧ (operator_call Sample.both_regular
       (w_app (operator_call Sample.empty_fs
                 (Sample.ctor Sample.two_inputs).1).1)).2 = 3
  ∧ w_trace (operator_call Sample.both_regular
       (w_app (operator_call Sample.empty_fs
                 (Sample.ctor Sample.two_inputs).1).1)).1 = [].
Proof.
  assert (Hr : (operator_call Sample.empty_fs
                  (Sample.ctor Sample.two_inputs).1).2 = 3)
    by (vm_compute; reflexivity).
  split; [exact Hr|].
  rewrite (@error_status_is_final Sample.empty_fs Sample.both_regular
             (Sample.ctor Sample.two_inputs).1).
  - split; [exact Hr | reflexivity].
  - rewrite Hr. discriminate.
Defined.

(** The input cannot be read (status 4), and the directories of the output
    path are created all the same, as the last library call. *)
Lemma create_directories_condition_witness :
  Sample.exit Sample.a_unreadable Sample.nested_output = 4
  ∧ ev_create_directories "build/icons"
    ∈ w_trace (operator_call Sample.a_unreadable
                 (Sample.ctor Sample.nested_output).1).1.
Proof.
  split; [vm_compute; reflexivity|].
  apply (create_directories_condition Sample.a_unreadable
           (Sample.ctor Sample.nested_output).1 "build/icons").
  - vm_compute; reflexivity.
  - vm_compute; discriminate.
  - exists "build/icons/out.ico". split_and!; vm_compute; reflexivity.
Defined.

Lemma create_directories_is_last_call_witness :
  ∃ before after,
    w_trace (operator_call Sample.a_unreadable
               (Sample.ctor Sample.nested_output).1).1
    = before ++ ev_create_directories "build/icons" :: after
    ∧ Forall (λ e, is_create_directories e = false) before
    ∧ Forall (λ e, is_fs_event e = false) after.
Proof.
  apply (create_directories_is_last_call Sample.a_unreadable
           (Sample.ctor Sample.nested_output).1 "build/icons").
  vm_compute. do 5 right. left.
Defined.

(** The directory [b.png] is asked about as a file because it exists. *)
Lemma is_regular_file_only_if_exists_witness :
  ev_is_regular_file "b.png"
    ∈ w_trace (operator_call Sample.b_is_directory
                 (Sample.ctor Sample.two_inputs).1).1
  ∧ fs_exists Sample.b_is_directory "b.png" = Some true.
Proof.
  assert (Hin : ev_is_regular_file "b.png"
    ∈ w_trace (operator_call Sample.b_is_directory
                 (Sample.ctor Sample.two_inputs).1).1)
    by (vm_compute; do 3 right; left).
  split; [exact Hin|].
  exact (is_regular_file_only_if_exists Sample.b_is_directory _ "b.png" Hin).
Defined.

(** The first input cannot be read: the second one is not examined, and
    the output path is taken up. *)
Lemma throwing_query_ends_input_loop_witness :
  w_trace (operator_call Sample.a_unreadable
             (Sample.ctor Sample.two_inputs).1).1
  = [ev_exists "a.png";
     ev_error "Filesystem error while reading inputs!" None;
     ev_absolute "out.ico"; ev_exists "out.ico"; ev_exists "";
     ev_create_directories ""; ev_short_verbose "Output path: " "out.ico"].
Proof.
  rewrite (throwing_query_ends_input_loop Sample.a_unreadable
             (Sample.ctor Sample.two_inputs).1 [] ["b.png"] "a.png").
  - vm_compute; reflexivity.
  - vm_compute; reflexivity.
  - vm_compute; discriminate.
  - vm_compute; reflexivity.
  - constructor.
  - vm_compute; reflexivity.
Defined.

(** Help with an output path: the input is checked and the output path
    taken up; help alone: the call returns 0 at once. *)
Lemma help_does_not_stop_processing_witness :
  status_ (Sample.ctor Sample.help_then_output).1 = 0
  ∧ w_trace (operator_call Sample.both_regular
               (Sample.ctor Sample.help_then_output).1).1
    = [ev_exists "a.png"; ev_is_regular_file "a.png";
       ev_absolute "out.ico"; ev_exists "out.ico"; ev_exists "";
       ev_create_directories ""; ev_short_verbose "Output path: " "out.ico"]
  ∧ operator_call Sample.both_regular (Sample.ctor [long_help ""]).1
    = (MkWorld (Sample.ctor [long_help ""]).1 [], 0).
Proof.
  destruct (@help_does_not_stop_processing Sample.env Sample.both_regular
              Sample.help_then_output) as [Hrun _]; [vm_compute; reflexivity|].
  destruct Hrun as [Hs Htr]; [vm_compute; discriminate|].
  destruct (@help_does_not_stop_processing Sample.env Sample.both_regular
              [long_help ""]) as [_ Hret]; [vm_compute; reflexivity|].
  split_and!.
  - exact Hs.
  - unfold Sample.ctor. rewrite Htr. vm_compute; reflexivity.
  - apply Hret; vm_compute; reflexivity.
Defined.

(** The table on the sample filesystems. *)
Lemma returned_status_table_witness :
  (operator_call Sample.both_regular (Sample.ctor Sample.two_inputs).1).2 = 0
  ∧ (operator_call Sample.b_is_directory (Sample.ctor Sample.two_inputs).1).2
    = 3
  ∧ classify_output Sample.output_is_directory "out.ico" = output_blocked.
Proof.
  assert (Hs : status_ (Sample.ctor Sample.two_inputs).1 = 0)
    by (vm_compute; reflexivity).
  assert (Ho : output_path_ (Sample.ctor Sample.two_inputs).1 ≠ "")
    by (vm_compute; discriminate).
  split_and!.
  - apply (@returned_status_table Sample.both_regular _ Hs Ho).
    split; [vm_compute; reflexivity | vm_compute; repeat constructor].
  - apply (@returned_status_table Sample.b_is_directory _ Hs Ho).
    split_and!.
    + vm_compute; reflexivity.
    + vm_compute. repeat constructor; discriminate.
    + vm_compute. right. left. reflexivity.
  - apply (@returned_status_table Sample.output_is_directory _ Hs Ho).
    vm_compute; reflexivity.
Defined.

(** An output path and nothing else. *)
Lemma no_inputs_is_not_an_error_witness :
  w_trace (operator_call Sample.empty_fs (Sample.ctor [nth0 "out.ico"]).1).1
  = [ev_absolute "out.ico"; ev_exists "out.ico"; ev_exists "";
     ev_create_directories ""; ev_short_verbose "Output path: " "out.ico"]
  ∧ (operator_call Sample.empty_fs (Sample.ctor [nth0 "out.ico"]).1).2 = 0.
Proof.
  destruct (no_inputs_is_not_an_error Sample.empty_fs
              (Sample.ctor [nth0 "out.ico"]).1) as [Htr Hr].
  - vm_compute; reflexivity.
  - vm_compute; discriminate.
  - reflexivity.
  - split; [rewrite Htr | rewrite Hr]; vm_compute; reflexivity.
Defined.
